(** * AWSEnumerator: the enumeration engine of [aws_enumerator.py]

    A shallow embedding of [get_all_resources] and of the methods of
    [MainWindow] that consume its result ([display_resources_for_region],
    with the aggregation it does for the ["ALL"] label, and
    [format_region_data]), followed by the properties of the inventory
    they build.

    Python dictionaries are insertion-ordered association lists with unique
    keys, Python lists are lists, and the local variables that the source
    mutates ([region_data], [resources_by_region]) live in an explicit
    state, next to the log of the service calls issued so far.  A service
    call either returns its payload or raises botocore's [ClientError],
    the one exception the source handles.  Any other exception, of a call
    or of the construction of a client by [boto3.client] (lines 15, 41,
    69 and 80), is caught nowhere in the source and ends the run with
    that exception: the runs modelled here are those in which none is
    raised, and every statement below is about these runs. *)

From Stdlib Require Import List String Bool Arith Lia.
From Stdlib Require Sorting.Mergesort.
From Stdlib Require Import Sorting.Sorted Sorting.Permutation.
Import ListNotations.
Open Scope string_scope.
Open Scope list_scope.

(** ** Python dictionaries *)

Module Dict.

Definition dict (V : Type) := list (string * V).

(** [d.get(k)] / [d[k]]: [None] stands for a missing key. *)
Fixpoint get {V} (k : string) (d : dict V) : option V :=
  match d with
  | [] => None
  | (k', v) :: d' => if k =? k' then Some v else get k d'
  end.

(** [d[k] = v]: an existing key keeps its position, a new one goes last. *)
Fixpoint set {V} (k : string) (v : V) (d : dict V) : dict V :=
  match d with
  | [] => [(k, v)]
  | (k', v') :: d' =>
      if k =? k' then (k', v) :: d' else (k', v') :: set k v d'
  end.

(** [d.keys()], in insertion order. *)
Definition keys {V} (d : dict V) : list string := map fst d.

End Dict.

Import Dict.

(** ** The service calls and the cloud that answers them *)

Record security_group := { GroupName : string; GroupId : string }.

Record db_instance :=
  { DBInstanceIdentifier : string; DBInstanceStatus : string }.

(** One constructor per boto3 operation the source invokes. *)
Inductive call :=
| DescribeRegions
| DescribeInstances (region : string)
| DescribeVolumes (region : string)
| DescribeSnapshots (region : string)
| DescribeSecurityGroups (region : string)
| ListBuckets
| GetBucketLocation (bucket : string)
| DescribeDBInstances (region : string).

Definition call_eqb (a b : call) : bool :=
  match a, b with
  | DescribeRegions, DescribeRegions => true
  | DescribeInstances r, DescribeInstances r' => r =? r'
  | DescribeVolumes r, DescribeVolumes r' => r =? r'
  | DescribeSnapshots r, DescribeSnapshots r' => r =? r'
  | DescribeSecurityGroups r, DescribeSecurityGroups r' => r =? r'
  | ListBuckets, ListBuckets => true
  | GetBucketLocation b, GetBucketLocation b' => b =? b'
  | DescribeDBInstances r, DescribeDBInstances r' => r =? r'
  | _, _ => false
  end.

(** The outcome of one call at the service: a payload, or [ClientError]. *)
Inductive response (A : Type) :=
| Ok (payload : A)
| Fails.
Arguments Ok {A} payload.
Arguments Fails {A}.

(** The account as the program sees it.  Every operation receives the
    calls issued before it (most recent first), so that an answer may
    change from one call to the next; the payloads are the fields the
    source reads: [RegionName], [InstanceId] grouped by reservation,
    [VolumeId], [SnapshotId] (owner [self]), name and id of a security
    group, bucket [Name], [LocationConstraint], identifier and status of
    a database instance. *)
Record cloud := {
  describe_regions : list call -> response (list string);
  describe_instances : string -> list call -> response (list (list string));
  describe_volumes : string -> list call -> response (list string);
  describe_snapshots : string -> list call -> response (list string);
  describe_security_groups :
    string -> list call -> response (list security_group);
  list_buckets : list call -> response (list string);
  get_bucket_location : string -> list call -> response (option string);
  describe_db_instances : string -> list call -> response (list db_instance)
}.

(** ** The state and exception monad of [get_all_resources] *)

Definition region_inventory := dict (list string).
Definition inventory := dict region_inventory.

Record state := {
  calls : list call;                 (* most recent first *)
  region_data : region_inventory;
  resources_by_region : inventory
}.

(** The exceptions of the model: the service error the source catches,
    and the error of a dictionary lookup, which it does not. *)
Inductive exn := ClientError | KeyError.

Inductive outcome (A : Type) :=
| Returned (a : A)
| Raised (e : exn).
Arguments Returned {A} a.
Arguments Raised {A} e.

Definition M (A : Type) := state -> state * outcome A.

Definition ret {A} (a : A) : M A := fun s => (s, Returned a).

Definition bind {A B} (m : M A) (k : A -> M B) : M B :=
  fun s =>
    match m s with
    | (s', Returned a) => k a s'
    | (s', Raised e) => (s', Raised e)
    end.

Notation "x <- m ;; k" := (bind m (fun x => k))
  (at level 61, m at next level, right associativity).
Notation "m ;; k" := (bind m (fun _ => k))
  (at level 61, right associativity).

(** [try: body except ClientError: handler].  The state reached when the
    exception was raised is the one the handler starts from; any other
    exception passes through. *)
Definition try_except {A} (body handler : M A) : M A :=
  fun s =>
    match body s with
    | (s', Raised ClientError) => handler s'
    | r => r
    end.

(** [for x in xs: body]. *)
Fixpoint for_each {A} (xs : list A) (body : A -> M unit) : M unit :=
  match xs with
  | [] => ret tt
  | x :: xs' => body x ;; for_each xs' body
  end.

(** Issue call [c], answered by [answer] from the calls made so far. *)
Definition invoke {A} (c : call) (answer : list call -> response A) : M A :=
  fun s =>
    let s' := {| calls := c :: calls s;
                 region_data := region_data s;
                 resources_by_region := resources_by_region s |} in
    match answer (calls s) with
    | Ok a => (s', Returned a)
    | Fails => (s', Raised ClientError)
    end.

(** [region_data = {...}] *)
Definition new_region_data (d : region_inventory) : M unit :=
  fun s => ({| calls := calls s; region_data := d;
               resources_by_region := resources_by_region s |}, Returned tt).

(** [region_data[key].append(item)] *)
Definition append (key item : string) : M unit :=
  fun s =>
    match get key (region_data s) with
    | Some items =>
        ({| calls := calls s;
            region_data := set key (items ++ [item]) (region_data s);
            resources_by_region := resources_by_region s |}, Returned tt)
    | None => (s, Raised KeyError)
    end.

(** [resources_by_region[region] = region_data] *)
Definition store_region (region : string) : M unit :=
  fun s =>
    ({| calls := calls s; region_data := region_data s;
        resources_by_region :=
          set region (region_data s) (resources_by_region s) |},
     Returned tt).

(** [resources_by_region = {}] *)
Definition new_resources : M unit :=
  fun s => ({| calls := calls s; region_data := region_data s;
               resources_by_region := [] |}, Returned tt).

Definition read_resources : M inventory :=
  fun s => (s, Returned (resources_by_region s)).

(** ** [get_all_resources] *)

Definition empty_region_data : region_inventory :=
  [ ("Instances", []); ("Volumes", []); ("Snapshots", []);
    ("SecurityGroups", []); ("S3Buckets", []); ("RDSInstances", []) ].

Section Enumeration.

Variable aws : cloud.

(** Lines 17-18: the region names of the listing, as listed. *)
Definition discover_regions : M (list string) :=
  regions <- invoke DescribeRegions (describe_regions aws) ;;
  ret regions.

(** Lines 41-61: the four EC2 queries of one region, in one [try].  The
    client of line 41 is built without a service call; an exception of
    its construction is none of [ClientError] and is outside the model,
    as are those of lines 15, 69 and 80. *)
Definition ec2_block (region : string) : M unit :=
  instances_data <- invoke (DescribeInstances region)
                           (describe_instances aws region) ;;
  for_each instances_data (fun reservation =>
    for_each reservation (fun instance => append "Instances" instance)) ;;
  volumes_data <- invoke (DescribeVolumes region)
                         (describe_volumes aws region) ;;
  for_each volumes_data (fun volume => append "Volumes" volume) ;;
  snapshots_data <- invoke (DescribeSnapshots region)
                           (describe_snapshots aws region) ;;
  for_each snapshots_data (fun snapshot => append "Snapshots" snapshot) ;;
  sgs_data <- invoke (DescribeSecurityGroups region)
                     (describe_security_groups aws region) ;;
  for_each sgs_data (fun sg =>
    append "SecurityGroups" (GroupName sg ++ " (" ++ GroupId sg ++ ")")).

(** Line 73: does the bucket belong to the region being collected? *)
Definition bucket_matches (bucket_region : option string) (region : string)
  : bool :=
  match bucket_region with
  | Some r => r =? region
  | None => region =? "us-east-1"
  end.

(** Lines 69-74: the bucket listing and one location lookup per bucket. *)
Definition s3_block (region : string) : M unit :=
  buckets_data <- invoke ListBuckets (list_buckets aws) ;;
  for_each buckets_data (fun bucket =>
    bucket_region <- invoke (GetBucketLocation bucket)
                            (get_bucket_location aws bucket) ;;
    if bucket_matches bucket_region region
    then append "S3Buckets" bucket
    else ret tt).

(** Lines 80-85. *)
Definition rds_block (region : string) : M unit :=
  rds_data <- invoke (DescribeDBInstances region)
                     (describe_db_instances aws region) ;;
  for_each rds_data (fun db_instance =>
    append "RDSInstances"
      (DBInstanceIdentifier db_instance ++ " (Status: "
         ++ DBInstanceStatus db_instance ++ ")")).

(** Lines 31-89: the body of the loop for a region other than ["ALL"]. *)
Definition collect_region (region : string) : M unit :=
  new_region_data empty_region_data ;;
  try_except (ec2_block region) (ret tt) ;;
  try_except (s3_block region) (ret tt) ;;
  try_except (rds_block region) (ret tt) ;;
  store_region region.

(** Lines 26-89. *)
Definition region_loop (regions : list string) : M unit :=
  for_each regions (fun region =>
    if region =? "ALL" then ret tt else collect_region region).

Definition get_all_resources : M inventory :=
  new_resources ;;
  discovered <- try_except (regions <- discover_regions ;;
                            ret (Some regions))
                           (ret None) ;;
  match discovered with
  | None => ret []
  | Some regions =>
      region_loop ("ALL" :: regions) ;;
      read_resources
  end.

Definition initial : state :=
  {| calls := []; region_data := []; resources_by_region := [] |}.

(** One run of the program's enumeration: the final state (with the log
    of calls) and what the function returned. *)
Definition run : state * outcome inventory := get_all_resources initial.

Definition calls_of_run : list call := calls (fst run).

End Enumeration.

(** ** The consumer: [MainWindow] *)

(** The keys of [combined], in the order the source writes them. *)
Definition kinds : list string :=
  [ "Instances"; "Volumes"; "Snapshots"; "SecurityGroups"; "S3Buckets";
    "RDSInstances" ].

(** Lines 156-157: [for key in combined:
    combined[key].extend(region_data[key])].  A key that [region_data]
    lacks raises [KeyError]. *)
Fixpoint extend_keys (ks : list string) (combined data : region_inventory)
  : outcome region_inventory :=
  match ks with
  | [] => Returned combined
  | key :: ks' =>
      match get key combined, get key data with
      | Some items, Some more =>
          extend_keys ks' (set key (items ++ more) combined) data
      | _, _ => Raised KeyError
      end
  end.

(** Lines 153-157: the loop over [self.resources.items()]. *)
Fixpoint combine_loop (items : inventory) (combined : region_inventory)
  : outcome region_inventory :=
  match items with
  | [] => Returned combined
  | (r, data) :: items' =>
      if r =? "ALL" then combine_loop items' combined
      else match extend_keys (keys combined) combined data with
           | Returned combined' => combine_loop items' combined'
           | Raised e => Raised e
           end
  end.

(** Lines 145-157: the inventory shown for the label ["ALL"]. *)
Definition combine_all (resources : inventory) : outcome region_inventory :=
  combine_loop resources empty_region_data.

(** Lines 171-177: the lines appended for one entry of [data_dict]. *)
Definition format_entry (entry : string * list string) : list string :=
  let (resource_type, items) := entry in
  (resource_type ++ ":")%string
    :: (match items with
        | [] => ["  - (none)"]
        | _ => map (fun item => ("  - " ++ item)%string) items
        end ++ [""])%list.

Definition newline : string := String (Ascii.ascii_of_nat 10) EmptyString.

Definition format_lines (region : string) (data_dict : region_inventory)
  : list string :=
  ("Resources in region: " ++ region ++ newline)%string
    :: flat_map format_entry data_dict.

Definition format_region_data (region : string) (data_dict : region_inventory)
  : string :=
  String.concat newline (format_lines region data_dict).

(** [display_resources_for_region]: the message logged and the text put in
    the resource pane, [None] when there is no current item. *)
Definition display_resources_for_region (resources : inventory)
  (current : option string) : outcome (option (string * string)) :=
  match current with
  | None => Returned None
  | Some region =>
      if region =? "ALL" then
        match combine_all resources with
        | Returned combined =>
            Returned (Some ("Displaying resources for ALL regions.",
                            format_region_data "ALL" combined))
        | Raised e => Raised e
        end
      else
        let region_data :=
          match get region resources with Some d => d | None => [] end in
        Returned
          (Some (("Displaying resources for region " ++ region ++ ".")%string,
                 format_region_data region region_data))
  end.

(** ** What one pass over a region leaves behind

    The functions below compute, from the log [h] at which a block starts,
    the items the block appends and the log it ends with.  The lemmas
    [ec2_block_run], [s3_block_run], [rds_block_run] and
    [collect_region_run] show that the blocks of the program compute
    exactly that, [region_loop_run] and [run_eq] that the loop and the
    whole function do. *)

Definition sg_item (sg : security_group) : string :=
  GroupName sg ++ " (" ++ GroupId sg ++ ")".

Definition db_item (db : db_instance) : string :=
  DBInstanceIdentifier db ++ " (Status: " ++ DBInstanceStatus db ++ ")".

Section Summary.

Variable aws : cloud.

Definition ec2_items (r : string) (h : list call)
  : list string * list string * list string * list string :=
  match describe_instances aws r h with
  | Fails => ([], [], [], [])
  | Ok rs =>
      match describe_volumes aws r (DescribeInstances r :: h) with
      | Fails => (List.concat rs, [], [], [])
      | Ok vs =>
          match describe_snapshots aws r
                  (DescribeVolumes r :: DescribeInstances r :: h) with
          | Fails => (List.concat rs, vs, [], [])
          | Ok ss =>
              match describe_security_groups aws r
                      (DescribeSnapshots r :: DescribeVolumes r
                         :: DescribeInstances r :: h) with
              | Fails => (List.concat rs, vs, ss, [])
              | Ok gs => (List.concat rs, vs, ss, map sg_item gs)
              end
          end
      end
  end.

Definition ec2_calls (r : string) (h : list call) : list call :=
  match describe_instances aws r h with
  | Fails => [DescribeInstances r]
  | Ok _ =>
      match describe_volumes aws r (DescribeInstances r :: h) with
      | Fails => [DescribeVolumes r; DescribeInstances r]
      | Ok _ =>
          match describe_snapshots aws r
                  (DescribeVolumes r :: DescribeInstances r :: h) with
          | Fails => [DescribeSnapshots r; DescribeVolumes r;
                      DescribeInstances r]
          | Ok _ => [DescribeSecurityGroups r; DescribeSnapshots r;
                     DescribeVolumes r; DescribeInstances r]
          end
      end
  end.

(** The location lookups over the listed buckets: the buckets kept for
    region [r] and the log, up to the first lookup that fails. *)
Fixpoint s3_scan (r : string) (bs : list string) (h : list call)
  : list string * list call :=
  match bs with
  | [] => ([], h)
  | b :: bs' =>
      match get_bucket_location aws b h with
      | Fails => ([], GetBucketLocation b :: h)
      | Ok loc =>
          let (kept, h') := s3_scan r bs' (GetBucketLocation b :: h) in
          ((if bucket_matches loc r then [b] else []) ++ kept, h')
      end
  end.

Definition s3_pass (r : string) (h : list call) : list string * list call :=
  match list_buckets aws h with
  | Fails => ([], ListBuckets :: h)
  | Ok bs => s3_scan r bs (ListBuckets :: h)
  end.

Definition rds_items (r : string) (h : list call) : list string :=
  match describe_db_instances aws r h with
  | Fails => []
  | Ok dbs => map db_item dbs
  end.

(** The [region_data] stored for [r] by a pass that starts at log [h],
    and the log at the end of the pass. *)
Definition pass_data (r : string) (h : list call) : region_inventory :=
  let '(i, v, s, g) := ec2_items r h in
  let h1 := ec2_calls r h ++ h in
  let (b, h2) := s3_pass r h1 in
  [ ("Instances", i); ("Volumes", v); ("Snapshots", s);
    ("SecurityGroups", g); ("S3Buckets", b);
    ("RDSInstances", rds_items r h2) ].

Definition pass_calls (r : string) (h : list call) : list call :=
  DescribeDBInstances r :: snd (s3_pass r (ec2_calls r h ++ h)).

(** Log and [resources_by_region] after the loop over [rs]. *)
Fixpoint loop_result (rs : list string) (h : list call) (inv : inventory)
  : list call * inventory :=
  match rs with
  | [] => (h, inv)
  | r :: rs' =>
      if r =? "ALL" then loop_result rs' h inv
      else loop_result rs' (pass_calls r h)
             (set r (pass_data r h) inv)
  end.

(** Log and returned dictionary of a run. *)
Definition run_result : list call * inventory :=
  match describe_regions aws [] with
  | Fails => ([DescribeRegions], [])
  | Ok regions => loop_result regions [DescribeRegions] []
  end.

End Summary.

Definition not_all (r : string) : bool := negb (r =? "ALL").

(** The keys of a dictionary filled in the order [rs]: every name once, at
    the place of its first occurrence. *)
Definition remember (seen : list string) (r : string) : list string :=
  if existsb (String.eqb r) seen then seen else seen ++ [r].

Definition distinct (rs : list string) : list string :=
  fold_left remember rs [].

(** ** Notions used to state the properties *)

(** How many times the bucket listing was issued in a log. *)
Definition bucket_listings (log : list call) : nat :=
  List.length (filter (call_eqb ListBuckets) log).

(** The regions whose pass was started, oldest first: every pass opens
    with [describe_instances] for its region. *)
Fixpoint passes_started (log : list call) : list string :=
  match log with
  | [] => []
  | DescribeInstances r :: log' => passes_started log' ++ [r]
  | _ :: log' => passes_started log'
  end.

(** The region a bucket belongs to: its location constraint, or
    [us-east-1] when it has none. *)
Definition governing_region (location : option string) : string :=
  match location with
  | Some r => r
  | None => "us-east-1"
  end.

(** [d[k]], with the empty sequence for a missing key. *)
Definition items_of (k : string) (d : region_inventory) : list string :=
  match get k d with
  | Some items => items
  | None => []
  end.

(** A region inventory in which no kind key is missing. *)
Definition filled (d : region_inventory) : Prop :=
  forall k, In k kinds -> exists items, get k d = Some items.

Definition bullet (item : string) : string := "  - " ++ item.

(** The lines of one kind: its header, then the marker or the items. *)
Definition kind_block (k : string) (items : list string) : list string :=
  (k ++ ":")%string
    :: match items with
       | [] => ["  - (none)"]
       | _ => map bullet items
       end.

(** The listing kind by kind, in the order of [kinds]: the title line,
    then every kind's block followed by an empty line. *)
Definition format_by_kind (region : string) (d : region_inventory)
  : list string :=
  ("Resources in region: " ++ region ++ newline)%string
    :: flat_map (fun k => kind_block k (items_of k d) ++ [""]) kinds.

(** The sequence stored at a (region, kind) pair of a returned value. *)
Definition cell (result : outcome inventory) (r k : string)
  : option (list string) :=
  match result with
  | Returned inv =>
      match get r inv with
      | Some d => get k d
      | None => None
      end
  | Raised _ => None
  end.

(** ** One query made to fail *)

(** An account whose answers do not change during a run. *)
Record account := {
  regions_of : list string;
  instances_of : string -> list (list string);
  volumes_of : string -> list string;
  snapshots_of : string -> list string;
  security_groups_of : string -> list security_group;
  buckets_of : list string;
  location_of : string -> option string;
  db_instances_of : string -> list db_instance
}.

(** The query of a pass that is made to fail: one per kind, the bucket
    listing standing for the bucket kind. *)
Inductive probe :=
| Instances | Volumes | Snapshots | SecurityGroups | Buckets | Databases.

Definition key_of (p : probe) : string :=
  match p with
  | Instances => "Instances"
  | Volumes => "Volumes"
  | Snapshots => "Snapshots"
  | SecurityGroups => "SecurityGroups"
  | Buckets => "S3Buckets"
  | Databases => "RDSInstances"
  end.

Definition probe_eqb (p q : probe) : bool :=
  match p, q with
  | Instances, Instances | Volumes, Volumes | Snapshots, Snapshots
  | SecurityGroups, SecurityGroups | Buckets, Buckets
  | Databases, Databases => true
  | _, _ => false
  end.

(** The place of a kind in the EC2 block, if it is queried there. *)
Definition ec2_rank (p : probe) : option nat :=
  match p with
  | Instances => Some 0
  | Volumes => Some 1
  | Snapshots => Some 2
  | SecurityGroups => Some 3
  | Buckets | Databases => None
  end.

(** The kinds left empty when the query for [failing] fails: that kind,
    and the kinds queried after it in the EC2 block. *)
Definition blanked (failing k : probe) : bool :=
  probe_eqb failing k
  || match ec2_rank failing, ec2_rank k with
     | Some i, Some j => Nat.ltb i j
     | _, _ => false
     end.

(** The region whose pass is under way: that of the latest call that
    names a region. *)
Fixpoint current_region (h : list call) : option string :=
  match h with
  | [] => None
  | DescribeInstances r :: _ | DescribeVolumes r :: _
  | DescribeSnapshots r :: _ | DescribeSecurityGroups r :: _
  | DescribeDBInstances r :: _ => Some r
  | _ :: h' => current_region h'
  end.

Definition fails_here (fault : option (string * probe)) (p : probe)
  (region : option string) : bool :=
  match fault, region with
  | Some (r, k), Some r' => probe_eqb k p && (r =? r')
  | _, _ => false
  end.

Definition answer {A} (failing : bool) (payload : A) : response A :=
  if failing then Fails else Ok payload.

(** The account [a] as a cloud: every call succeeds, except the query for
    kind [k] in the pass over region [r] when [fault = Some (r, k)]. *)
Definition serve (a : account) (fault : option (string * probe)) : cloud :=
  {| describe_regions := fun _ => Ok (regions_of a);
     describe_instances := fun r _ =>
       answer (fails_here fault Instances (Some r)) (instances_of a r);
     describe_volumes := fun r _ =>
       answer (fails_here fault Volumes (Some r)) (volumes_of a r);
     describe_snapshots := fun r _ =>
       answer (fails_here fault Snapshots (Some r)) (snapshots_of a r);
     describe_security_groups := fun r _ =>
       answer (fails_here fault SecurityGroups (Some r))
              (security_groups_of a r);
     list_buckets := fun h =>
       answer (fails_here fault Buckets (current_region h)) (buckets_of a);
     get_bucket_location := fun b _ => Ok (location_of a b);
     describe_db_instances := fun r _ =>
       answer (fails_here fault Databases (Some r)) (db_instances_of a r) |}.

(** What a pass over [r] stores for such a cloud. *)
Definition served_data (a : account) (fault : option (string * probe))
  (r : string) : region_inventory :=
  let f p := fails_here fault p (Some r) in
  [ ("Instances",
     if f Instances then [] else List.concat (instances_of a r));
    ("Volumes",
     if f Instances || f Volumes then [] else volumes_of a r);
    ("Snapshots",
     if f Instances || f Volumes || f Snapshots then []
     else snapshots_of a r);
    ("SecurityGroups",
     if f Instances || f Volumes || f Snapshots || f SecurityGroups then []
     else map sg_item (security_groups_of a r));
    ("S3Buckets",
     if f Buckets then []
     else filter (fun b => bucket_matches (location_of a b) r)
            (buckets_of a));
    ("RDSInstances",
     if f Databases then [] else map db_item (db_instances_of a r)) ].

(** ** Concrete accounts, used to exercise the definitions *)

Module Sample.

Definition on (r : string) {A} (table : list (string * A)) (dflt : A) : A :=
  match get r table with Some a => a | None => dflt end.

(** Two regions; ["r1"] has one instance, ["r2"] one security group; one
    bucket located in ["r1"]. *)
Definition two_regions : cloud :=
  {| describe_regions := fun _ => Ok ["r1"; "r2"];
     describe_instances := fun r _ => Ok (on r [("r1", [["i-1"]])] []);
     describe_volumes := fun _ _ => Ok [];
     describe_snapshots := fun _ _ => Ok [];
     describe_security_groups := fun r _ =>
       Ok (on r [("r2", [ {| GroupName := "web"; GroupId := "sg-1" |} ])] []);
     list_buckets := fun _ => Ok ["b1"];
     get_bucket_location := fun _ _ => Ok (Some "r1");
     describe_db_instances := fun _ _ => Ok [] |}.
Definition quiet : cloud :=
  {| describe_regions := fun _ => Ok [];
     describe_instances := fun _ _ => Ok [];
     describe_volumes := fun _ _ => Ok [];
     describe_snapshots := fun _ _ => Ok [];
     describe_security_groups := fun _ _ => Ok [];
     list_buckets := fun _ => Ok [];
     get_bucket_location := fun _ _ => Ok None;
     describe_db_instances := fun _ _ => Ok [] |}.

(** The region listing is refused. *)
Definition denied : cloud :=
  {| describe_regions := fun _ => Fails;
     describe_instances := describe_instances quiet;
     describe_volumes := describe_volumes quiet;
     describe_snapshots := describe_snapshots quiet;
     describe_security_groups := describe_security_groups quiet;
     list_buckets := list_buckets quiet;
     get_bucket_location := get_bucket_location quiet;
     describe_db_instances := describe_db_instances quiet |}.

(** Two regions; a bucket is created between the two bucket listings of
    the run, so that the second listing differs from the first. *)
Definition new_bucket : cloud :=
  {| describe_regions := fun _ => Ok ["r1"; "r2"];
     describe_instances := describe_instances quiet;
     describe_volumes := describe_volumes quiet;
     describe_snapshots := describe_snapshots quiet;
     describe_security_groups := describe_security_groups quiet;
     list_buckets := fun h =>
       if Nat.eqb (bucket_listings h) 0 then Ok ["b1"] else Ok ["b1"; "b2"];
     get_bucket_location := fun bucket _ =>
       if bucket =? "b1" then Ok (Some "r1") else Ok (Some "r2");
     describe_db_instances := describe_db_instances quiet |}.

(** The provider names one region twice. *)
Definition repeated_region : cloud :=
  {| describe_regions := fun _ => Ok ["r1"; "r1"];
     describe_instances := describe_instances quiet;
     describe_volumes := describe_volumes quiet;
     describe_snapshots := describe_snapshots quiet;
     describe_security_groups := describe_security_groups quiet;
     list_buckets := list_buckets quiet;
     get_bucket_location := get_bucket_location quiet;
     describe_db_instances := describe_db_instances quiet |}.

(** One region, one bucket whose location names no region of the
    account. *)
Definition legacy_bucket : cloud :=
  {| describe_regions := fun _ => Ok ["eu-west-1"];
     describe_instances := describe_instances quiet;
     describe_volumes := describe_volumes quiet;
     describe_snapshots := describe_snapshots quiet;
     describe_security_groups := describe_security_groups quiet;
     list_buckets := fun _ => Ok ["old"];
     get_bucket_location := fun _ _ => Ok (Some "EU");
     describe_db_instances := describe_db_instances quiet |}.

(** Two regions, one bucket without location. *)
Definition default_bucket : cloud :=
  {| describe_regions := fun _ => Ok ["eu-west-1"; "us-east-1"];
     describe_instances := describe_instances quiet;
     describe_volumes := describe_volumes quiet;
     describe_snapshots := describe_snapshots quiet;
     describe_security_groups := describe_security_groups quiet;
     list_buckets := fun _ => Ok ["b"];
     get_bucket_location := fun _ _ => Ok None;
     describe_db_instances := describe_db_instances quiet |}.

(** The same bucket in an account where [us-east-1] is not listed. *)
Definition no_default_region : cloud :=
  {| describe_regions := fun _ => Ok ["eu-west-1"];
     describe_instances := describe_instances quiet;
     describe_volumes := describe_volumes quiet;
     describe_snapshots := describe_snapshots quiet;
     describe_security_groups := describe_security_groups quiet;
     list_buckets := fun _ => Ok ["b"];
     get_bucket_location := fun _ _ => Ok None;
     describe_db_instances := describe_db_instances quiet |}.

(** The bucket is listed after one whose location may not be read. *)
Definition locked_first : cloud :=
  {| describe_regions := fun _ => Ok ["us-east-1"];
     describe_instances := describe_instances quiet;
     describe_volumes := describe_volumes quiet;
     describe_snapshots := describe_snapshots quiet;
     describe_security_groups := describe_security_groups quiet;
     list_buckets := fun _ => Ok ["locked"; "b"];
     get_bucket_location := fun bucket _ =>
       if bucket =? "locked" then Fails else Ok None;
     describe_db_instances := describe_db_instances quiet |}.

(** One region where the volume query, one location lookup and the
    database query are refused. *)
Definition flaky : cloud :=
  {| describe_regions := fun _ => Ok ["r1"];
     describe_instances := fun _ _ => Ok [["i-1"; "i-2"]];
     describe_volumes := fun _ _ => Fails;
     describe_snapshots := fun _ _ => Ok ["snap-1"];
     describe_security_groups := describe_security_groups quiet;
     list_buckets := fun _ => Ok ["b1"; "locked"; "b3"];
     get_bucket_location := fun bucket _ =>
       if bucket =? "locked" then Fails else Ok (Some "r1");
     describe_db_instances := fun _ _ => Fails |}.

(** An account with an instance and a volume in ["r1"]. *)
Definition shop : account :=
  {| regions_of := ["r1"; "r2"];
     instances_of := fun r => if r =? "r1" then [["i-1"]] else [];
     volumes_of := fun r => if r =? "r1" then ["vol-1"] else ["vol-2"];
     snapshots_of := fun _ => [];
     security_groups_of := fun _ => [];
     buckets_of := ["b1"];
     location_of := fun _ => Some "r1";
     db_instances_of := fun _ => [] |}.

End Sample.

(** ** The window: [MainWindow.__init__], [log] and the selection slot *)

(** How many times call [c] was issued in a log. *)
Definition count_call (c : call) (log : list call) : nat :=
  List.length (filter (call_eqb c) log).

(** The EC2 queries for region [r] were issued in the order of the EC2
    block: none more often than the one before it. *)
Definition in_ec2_order (r : string) (log : list call) : Prop :=
  count_call (DescribeSecurityGroups r) log
  <= count_call (DescribeSnapshots r) log
  /\ count_call (DescribeSnapshots r) log
     <= count_call (DescribeVolumes r) log
  /\ count_call (DescribeVolumes r) log
     <= count_call (DescribeInstances r) log.

(** The call that an EC2 query of the block comes right after, in the
    same pass: a volume query the instance query, a snapshot query the
    volume query, a security-group query the snapshot query. *)
Definition comes_after (c : call) : option call :=
  match c with
  | DescribeVolumes r => Some (DescribeInstances r)
  | DescribeSnapshots r => Some (DescribeVolumes r)
  | DescribeSecurityGroups r => Some (DescribeSnapshots r)
  | _ => None
  end.

(** In the log (most recent first), every such query is next to the call
    it comes after. *)
Fixpoint in_block_order (log : list call) : bool :=
  match log with
  | [] => true
  | c :: log' =>
      match comes_after c with
      | None => true
      | Some c' =>
          match log' with
          | previous :: _ => call_eqb previous c'
          | [] => false
          end
      end && in_block_order log'
  end.

(** The order of Python strings, and [sorted] on a list of strings: a
    merge sort. *)
Module StringOrder <: Orders.TotalLeBool.

Definition t := string.

Definition leb := String.leb.

Definition leb_total : forall x y : t, leb x y = true \/ leb y x = true :=
  String.leb_total.

End StringOrder.

Module StringSort := Mergesort.Sort StringOrder.

Definition sorted (l : list string) : list string := StringSort.sort l.

Module Window.

(** The widgets the methods write to, and [self.resources]: the
    paragraphs of the log pane, the items of the region list, the
    paragraphs of the resource pane. *)
Record MainWindow := {
  log_text : list string;
  region_list : list string;
  resource_display : list string;
  resources : inventory
}.

(** Lines 180-181: [self.log_text.append(message)]. *)
Definition log (message : string) (self : MainWindow) : MainWindow :=
  {| log_text := log_text self ++ [message];
     region_list := region_list self;
     resource_display := resource_display self;
     resources := resources self |}.

(** [self.resource_display.clear()] followed by
    [self.resource_display.append(text)]. *)
Definition show (text : string) (self : MainWindow) : MainWindow :=
  {| log_text := log_text self;
     region_list := region_list self;
     resource_display := [text];
     resources := resources self |}.

(** Lines 95-136, for what the window holds afterwards: empty panes, the
    result of [get_all_resources], one list item per key in sorted
    order, and the first log message. *)
Definition __init__ (aws : cloud) : outcome MainWindow :=
  match snd (run aws) with
  | Returned fetched =>
      Returned
        (log ("AWS Enumerator initialized. Select a region on the left "
                ++ "to see its resources.")
           {| log_text := [];
              region_list := sorted (keys fetched);
              resource_display := [];
              resources := fetched |})
  | Raised e => Raised e
  end.

(** Lines 138-166, on the window: the slot of [currentItemChanged]. *)
Definition display_resources_for_region (self : MainWindow)
  (current : option string) : outcome MainWindow :=
  match current with
  | None => Returned self
  | Some region =>
      if region =? "ALL" then
        match combine_all (resources self) with
        | Returned combined =>
            Returned
              (show (format_region_data "ALL" combined)
                 (log "Displaying resources for ALL regions." self))
        | Raised e => Raised e
        end
      else
        let region_data :=
          match get region (resources self) with
          | Some d => d
          | None => []
          end in
        Returned
          (show (format_region_data region region_data)
             (log ("Displaying resources for region " ++ region ++ ".")
                self))
  end.

(** The slot called once for every change of the current item, in
    order; an exception ends the sequence. *)
Fixpoint selections (self : MainWindow) (changes : list (option string))
  : outcome MainWindow :=
  match changes with
  | [] => Returned self
  | current :: changes' =>
      match display_resources_for_region self current with
      | Returned self' => selections self' changes'
      | Raised e => Raised e
      end
  end.

End Window.

(** Does [d] have the key [k]? *)
Definition has_key (d : region_inventory) (k : string) : bool :=
  match get k d with
  | Some _ => true
  | None => false
  end.

(** An entry the combination for ["ALL"] can take: one it skips, or one
    with the six kinds. *)
Definition entry_ok (entry : string * region_inventory) : bool :=
  (fst entry =? "ALL") || forallb (has_key (snd entry)) kinds.

(** The text of the resource pane after [region] was chosen. *)
Definition pane_after (fetched : inventory) (region : string)
  : list string :=
  match display_resources_for_region fetched (Some region) with
  | Returned (Some (_, text)) => [text]
  | _ => []
  end.

(** The message logged when the window opens (line 136). *)
Definition opening_message : string :=
  "AWS Enumerator initialized. Select a region on the left "
    ++ "to see its resources.".

(** The message logged when [region] is chosen (lines 159 and 164). *)
Definition message_for (region : string) : string :=
  if region =? "ALL" then "Displaying resources for ALL regions."
  else "Displaying resources for region " ++ region ++ ".".

(** The messages logged for a sequence of changes of the current item:
    one per item chosen, in order. *)
Fixpoint messages (changes : list (option string)) : list string :=
  match changes with
  | [] => []
  | Some region :: changes' => message_for region :: messages changes'
  | None :: changes' => messages changes'
  end.

(** The label chosen last among the changes of the current item. *)
Fixpoint last_chosen (changes : list (option string)) : option string :=
  match changes with
  | [] => None
  | current :: changes' =>
      match last_chosen changes' with
      | Some region => Some region
      | None => current
      end
  end.

(** How many of the changes chose an item. *)
Fixpoint chosen (changes : list (option string)) : nat :=
  match changes with
  | [] => 0
  | Some _ :: changes' => S (chosen changes')
  | None :: changes' => chosen changes'
  end.

(** The listed buckets before the first occurrence of [b]. *)
Fixpoint before_bucket (b : string) (bs : list string) : list string :=
  match bs with
  | [] => []
  | b0 :: bs' => if b0 =? b then [] else b0 :: before_bucket b bs'
  end.

(** The account [a] as a cloud in which every call succeeds, except the
    location lookup of bucket [b] in the passes over region [r]. *)
Definition serve_lookup (a : account) (r b : string) : cloud :=
  {| describe_regions := describe_regions (serve a None);
     describe_instances := describe_instances (serve a None);
     describe_volumes := describe_volumes (serve a None);
     describe_snapshots := describe_snapshots (serve a None);
     describe_security_groups := describe_security_groups (serve a None);
     list_buckets := list_buckets (serve a None);
     get_bucket_location := fun bucket h =>
       answer ((bucket =? b)
               && match current_region h with
                  | Some r' => r' =? r
                  | None => false
                  end)
              (location_of a bucket);
     describe_db_instances := describe_db_instances (serve a None) |}.



(** The window opened on the account [Sample.two_regions]. *)
Module Scenario.


Definition two_regions_window : Window.MainWindow :=
  {| Window.log_text :=
       [ ("AWS Enumerator initialized. Select a region on the left "
            ++ "to see its resources.")%string ];
     Window.region_list := ["r1"; "r2"];
     Window.resource_display := [];
     Window.resources :=
       [ ("r1", [ ("Instances", ["i-1"]); ("Volumes", []);
                  ("Snapshots", []); ("SecurityGroups", []);
                  ("S3Buckets", ["b1"]); ("RDSInstances", []) ]);
         ("r2", [ ("Instances", []); ("Volumes", []); ("Snapshots", []);
                  ("SecurityGroups", ["web (sg-1)"]); ("S3Buckets", []);
                  ("RDSInstances", []) ]) ] |}.

(** Two regions; a bucket without location listed before one whose
    location may not be read. *)
Definition locked_last : cloud :=
  {| describe_regions := fun _ => Ok ["eu-west-1"; "us-east-1"];
     describe_instances := describe_instances Sample.quiet;
     describe_volumes := describe_volumes Sample.quiet;
     describe_snapshots := describe_snapshots Sample.quiet;
     describe_security_groups := describe_security_groups Sample.quiet;
     list_buckets := fun _ => Ok ["b"; "locked"];
     get_bucket_location := fun bucket _ =>
       if bucket =? "locked" then Fails else Ok None;
     describe_db_instances := describe_db_instances Sample.quiet |}.

(** An account with several reservations, buckets in two regions and two
    database instances. *)
Definition depot : account :=
  {| regions_of := ["r1"; "r2"];
     instances_of := fun r =>
       if r =? "r1" then [["i-1"]; ["i-2"; "i-3"]] else [];
     volumes_of := fun r => if r =? "r1" then ["vol-1"] else [];
     snapshots_of := fun _ => [];
     security_groups_of := fun _ => [];
     buckets_of := ["b1"; "b2"; "b3"];
     location_of := fun b => if b =? "b2" then Some "r2" else Some "r1";
     db_instances_of := fun r =>
       if r =? "r1"
       then [ {| DBInstanceIdentifier := "db-1";
                 DBInstanceStatus := "available" |};
              {| DBInstanceIdentifier := "db-2";
                 DBInstanceStatus := "stopped" |} ]
       else [] |}.

(** A region inventory with items of several kinds. *)
Definition stocked : region_inventory :=
  [ ("Instances", ["i-1"; "i-2"]); ("Volumes", []);
    ("Snapshots", ["snap-1"]); ("SecurityGroups", ["web (sg-1)"]);
    ("S3Buckets", ["b2"; "b1"]); ("RDSInstances", []) ].

(** The six kinds with ["Volumes"] written before ["Instances"]. *)
Definition shuffled : region_inventory :=
  [ ("Volumes", ["vol-1"]); ("Instances", ["i-1"]); ("Snapshots", []);
    ("SecurityGroups", []); ("S3Buckets", []); ("RDSInstances", []) ].

(** A dictionary whose second entry lacks the key ["Volumes"]. *)
Definition incomplete : inventory :=
  [ ("r1", empty_region_data); ("r2", [("Instances", ["i-9"])]) ].

End Scenario.

(** * Properties *)

(** The run over the account [Sample.two_regions]: the calls in the order
    they were issued, and the dictionary returned. *)
Example two_regions_run :
  rev (calls_of_run Sample.two_regions)
  = [ DescribeRegions;
      DescribeInstances "r1"; DescribeVolumes "r1"; DescribeSnapshots "r1";
      DescribeSecurityGroups "r1"; ListBuckets; GetBucketLocation "b1";
      DescribeDBInstances "r1";
      DescribeInstances "r2"; DescribeVolumes "r2"; DescribeSnapshots "r2";
      DescribeSecurityGroups "r2"; ListBuckets; GetBucketLocation "b1";
      DescribeDBInstances "r2" ]
  /\ snd (run Sample.two_regions)
     = Returned
         [ ("r1", [ ("Instances", ["i-1"]); ("Volumes", []);
                    ("Snapshots", []); ("SecurityGroups", []);
                    ("S3Buckets", ["b1"]); ("RDSInstances", []) ]);
           ("r2", [ ("Instances", []); ("Volumes", []); ("Snapshots", []);
                    ("SecurityGroups", ["web (sg-1)"]); ("S3Buckets", []);
                    ("RDSInstances", []) ]) ]
  /\ combine_all (snd (run_result Sample.two_regions))
     = Returned [ ("Instances", ["i-1"]); ("Volumes", []); ("Snapshots", []);
                  ("SecurityGroups", ["web (sg-1)"]); ("S3Buckets", ["b1"]);
                  ("RDSInstances", []) ].
Proof. repeat split. Qed.

(** ** Dictionaries: lookup after update *)

Section DictFacts.

Context {V : Type}.
Implicit Types (d : dict V) (k : string) (v : V).

Lemma get_set_same k v d : get k (set k v d) = Some v.
Proof.
  induction d as [|[k' v'] d IH]; simpl.
  - now rewrite String.eqb_refl.
  - destruct (k =? k') eqn:E; simpl; rewrite E; auto.
Qed.

Lemma get_set_other k k' v d : k <> k' -> get k (set k' v d) = get k d.
Proof.
  intros N. induction d as [|[k0 v0] d IH]; simpl.
  - destruct (k =? k') eqn:E; auto.
    apply String.eqb_eq in E; contradiction.
  - destruct (k' =? k0) eqn:E; simpl.
    + apply String.eqb_eq in E; subst k0.
      destruct (k =? k') eqn:E'; auto.
      apply String.eqb_eq in E'; contradiction.
    + now rewrite IH.
Qed.

Lemma set_get_id k v d : get k d = Some v -> set k v d = d.
Proof.
  induction d as [|[k' v'] d IH]; simpl; [discriminate|].
  destruct (k =? k') eqn:E.
  - now intros [= ->].
  - intros H. now rewrite IH.
Qed.

Lemma set_set k v v' d : set k v' (set k v d) = set k v' d.
Proof.
  induction d as [|[k' v0] d IH]; simpl.
  - now rewrite String.eqb_refl.
  - destruct (k =? k') eqn:E; simpl; rewrite E; auto.
    now rewrite IH.
Qed.

Lemma get_Some_In k v d : get k d = Some v -> In k (keys d).
Proof.
  induction d as [|[k' v'] d IH]; simpl; [discriminate|].
  destruct (k =? k') eqn:E.
  - apply String.eqb_eq in E; auto.
  - auto.
Qed.

Lemma In_keys_get k d : In k (keys d) -> exists v, get k d = Some v.
Proof.
  induction d as [|[k' v'] d IH]; simpl; [tauto|].
  intros H. destruct (k =? k') eqn:E; eauto.
  destruct H as [->|H]; auto.
  now rewrite String.eqb_refl in E.
Qed.

Lemma get_None_notin k d : get k d = None -> ~ In k (keys d).
Proof.
  intros H I. apply In_keys_get in I as [v E]. congruence.
Qed.

(** A known key is updated in place, an unknown one is added last. *)
Lemma keys_set k v d :
  keys (set k v d)
  = if existsb (String.eqb k) (keys d) then keys d else keys d ++ [k].
Proof.
  induction d as [|[k' v'] d IH]; simpl; auto.
  destruct (k =? k') eqn:E; simpl; auto.
  rewrite IH. now destruct (existsb _ _).
Qed.

End DictFacts.

(** ** Running the blocks of [get_all_resources] *)

Lemma try_pass (m : M unit) (s s' : state) (o : outcome unit) :
  m s = (s', o) -> o <> Raised KeyError ->
  try_except m (ret tt) s = (s', Returned tt).
Proof.
  unfold try_except, ret. intros ->. destruct o as [[]|[]]; congruence.
Qed.

Lemma for_each_append {A} (key : string) (f : A -> string) (xs : list A) :
  forall h d inv items,
    get key d = Some items ->
    for_each xs (fun x => append key (f x)) (Build_state h d inv)
    = (Build_state h (set key (items ++ map f xs) d) inv, Returned tt).
Proof.
  induction xs as [|x xs IH]; intros h d inv items G; simpl.
  - rewrite app_nil_r, (set_get_id _ _ _ G). reflexivity.
  - unfold bind at 1, append at 1; simpl. rewrite G.
    rewrite (IH _ _ _ (items ++ [f x])) by apply get_set_same.
    now rewrite set_set, <- app_assoc.
Qed.

Lemma for_each_reservations (key : string) (rs : list (list string)) :
  forall h d inv items,
    get key d = Some items ->
    for_each rs (fun reservation =>
      for_each reservation (fun instance => append key instance))
      (Build_state h d inv)
    = (Build_state h (set key (items ++ List.concat rs) d) inv, Returned tt).
Proof.
  induction rs as [|r rs IH]; intros h d inv items G; simpl.
  - rewrite app_nil_r, (set_get_id _ _ _ G). reflexivity.
  - unfold bind at 1.
    rewrite (for_each_append key (fun i => i) r h d inv items G), map_id.
    rewrite (IH _ _ _ (items ++ r)) by apply get_set_same.
    now rewrite set_set, <- app_assoc.
Qed.

Section Passes.

Variable aws : cloud.

Lemma ec2_block_run r h inv :
  let '(i, v, s, g) := ec2_items aws r h in
  try_except (ec2_block aws r) (ret tt)
    (Build_state h empty_region_data inv)
  = (Build_state (ec2_calls aws r h ++ h)
       [ ("Instances", i); ("Volumes", v); ("Snapshots", s);
         ("SecurityGroups", g); ("S3Buckets", []);
         ("RDSInstances", []) ] inv,
     Returned tt).
Proof.
  unfold ec2_items, ec2_calls, try_except, ec2_block, empty_region_data.
  unfold bind at 1, invoke at 1; simpl calls.
  destruct (describe_instances aws r h) as [rs|]; simpl; [|reflexivity].
  unfold bind at 1.
  erewrite for_each_reservations by reflexivity. simpl.
  unfold bind at 1, invoke at 1; simpl calls.
  destruct (describe_volumes aws r _) as [vs|]; simpl; [|reflexivity].
  unfold bind at 1.
  erewrite for_each_append by reflexivity. rewrite map_id. simpl.
  unfold bind at 1, invoke at 1; simpl calls.
  destruct (describe_snapshots aws r _) as [ss|]; simpl; [|reflexivity].
  unfold bind at 1.
  erewrite for_each_append by reflexivity. rewrite map_id. simpl.
  unfold bind at 1, invoke at 1; simpl calls.
  destruct (describe_security_groups aws r _) as [gs|]; simpl;
    [|reflexivity].
  erewrite (for_each_append "SecurityGroups" sg_item) by reflexivity.
  reflexivity.
Qed.

Lemma s3_loop_run r bs :
  forall h d inv items,
    get "S3Buckets" d = Some items ->
    exists o,
      for_each bs (fun bucket =>
        bucket_region <- invoke (GetBucketLocation bucket)
                                (get_bucket_location aws bucket) ;;
        if bucket_matches bucket_region r
        then append "S3Buckets" bucket
        else ret tt) (Build_state h d inv)
      = (Build_state (snd (s3_scan aws r bs h))
           (set "S3Buckets" (items ++ fst (s3_scan aws r bs h)) d) inv, o)
      /\ o <> Raised KeyError.
Proof.
  induction bs as [|b bs IH]; intros h d inv items G; simpl.
  - exists (Returned tt).
    rewrite app_nil_r, (set_get_id _ _ _ G). split; [reflexivity|discriminate].
  - unfold bind at 1, bind at 1, invoke at 1; simpl calls.
    destruct (get_bucket_location aws b h) as [loc|]; simpl.
    + destruct (s3_scan aws r bs (GetBucketLocation b :: h)) as [kept h'] eqn:E.
      destruct (bucket_matches loc r); simpl.
      * unfold append at 1; simpl. rewrite G.
        destruct (IH (GetBucketLocation b :: h)
                    (set "S3Buckets" (items ++ [b]) d) inv (items ++ [b])
                    (get_set_same _ _ _)) as [o [R N]].
        exists o. rewrite R, E, set_set, <- app_assoc. simpl. auto.
      * destruct (IH (GetBucketLocation b :: h) d inv items G) as [o [R N]].
        exists o. rewrite R, E. simpl. auto.
    + exists (Raised ClientError).
      rewrite app_nil_r, (set_get_id _ _ _ G).
      split; [reflexivity|discriminate].
Qed.

Lemma s3_block_run r h d inv items :
  get "S3Buckets" d = Some items ->
  try_except (s3_block aws r) (ret tt) (Build_state h d inv)
  = (Build_state (snd (s3_pass aws r h))
       (set "S3Buckets" (items ++ fst (s3_pass aws r h)) d) inv,
     Returned tt).
Proof.
  intros G. unfold s3_pass.
  destruct (list_buckets aws h) as [bs|] eqn:L.
  - destruct (s3_loop_run r bs (ListBuckets :: h) d inv items G)
      as [o [R N]].
    apply try_pass with (o := o); auto.
    unfold s3_block, bind at 1, invoke at 1; simpl calls. now rewrite L.
  - unfold try_except, s3_block, bind at 1, invoke at 1; simpl calls.
    rewrite L; simpl.
    now rewrite app_nil_r, (set_get_id _ _ _ G).
Qed.

Lemma rds_block_run r h d inv items :
  get "RDSInstances" d = Some items ->
  try_except (rds_block aws r) (ret tt) (Build_state h d inv)
  = (Build_state (DescribeDBInstances r :: h)
       (set "RDSInstances" (items ++ rds_items aws r h) d) inv,
     Returned tt).
Proof.
  intros G.
  unfold rds_items, try_except, rds_block, bind at 1, invoke at 1;
    simpl calls.
  destruct (describe_db_instances aws r h) as [dbs|]; simpl.
  - now rewrite (for_each_append "RDSInstances" db_item dbs _ _ _ _ G).
  - now rewrite app_nil_r, (set_get_id _ _ _ G).
Qed.

(** One pass of the loop body, from any state. *)
Lemma collect_region_run r h d0 inv :
  collect_region aws r (Build_state h d0 inv)
  = (Build_state (pass_calls aws r h) (pass_data aws r h)
       (set r (pass_data aws r h) inv),
     Returned tt).
Proof.
  unfold collect_region, pass_calls, pass_data.
  unfold bind at 1, new_region_data at 1; simpl.
  unfold bind at 1.
  pose proof (ec2_block_run r h inv) as E.
  destruct (ec2_items aws r h) as [[[i v] s] g]. rewrite E.
  unfold bind at 1.
  erewrite s3_block_run by reflexivity.
  destruct (s3_pass aws r (ec2_calls aws r h ++ h)) as [b h2]; simpl.
  unfold bind at 1.
  erewrite rds_block_run by reflexivity. simpl.
  reflexivity.
Qed.

End Passes.

(** ** The loop over the regions and the whole run *)

Section Loop.

Variable aws : cloud.

Lemma region_loop_run rs :
  forall h d0 inv,
  exists d,
    region_loop aws rs (Build_state h d0 inv)
    = (Build_state (fst (loop_result aws rs h inv)) d
         (snd (loop_result aws rs h inv)),
       Returned tt).
Proof.
  induction rs as [|r rs IH]; intros h d0 inv; simpl.
  - now exists d0.
  - unfold region_loop in *. simpl. unfold bind at 1.
    destruct (r =? "ALL").
    + unfold ret at 1. apply IH.
    + rewrite collect_region_run. apply IH.
Qed.

Lemma run_eq :
  exists d,
    run aws
    = (Build_state (fst (run_result aws)) d (snd (run_result aws)),
       Returned (snd (run_result aws))).
Proof.
  unfold run, run_result, get_all_resources, initial.
  unfold bind at 1, new_resources at 1; simpl.
  unfold bind at 1, try_except, discover_regions.
  unfold bind at 1, bind at 1, invoke at 1; simpl.
  destruct (describe_regions aws []) as [regions|]; simpl.
  - unfold bind at 1.
    destruct (region_loop_run ("ALL" :: regions) [DescribeRegions] [] [])
      as [d R].
    rewrite R. simpl. now exists d.
  - now exists [].
Qed.

(** [get_all_resources] always returns, and [(run_result aws)] is its log and
    its value. *)
Lemma run_spec :
  calls_of_run aws = fst (run_result aws)
  /\ snd (run aws) = Returned (snd (run_result aws)).
Proof.
  unfold calls_of_run. destruct run_eq as [d ->]. simpl. auto.
Qed.

(** Whatever holds of every pass over [r] holds of the entry stored
    for [r]. *)
Lemma loop_result_get (P : string -> region_inventory -> Prop) rs :
  (forall r h, In r rs -> r <> "ALL" -> P r (pass_data aws r h)) ->
  forall h inv,
    (forall r d, get r inv = Some d -> P r d) ->
    forall r d, get r (snd (loop_result aws rs h inv)) = Some d -> P r d.
Proof.
  induction rs as [|r0 rs IH]; intros HP h inv Hinv r d; simpl.
  - apply Hinv.
  - destruct (r0 =? "ALL") eqn:E.
    + apply IH; auto. intros; apply HP; simpl; auto.
    + apply IH.
      * intros; apply HP; simpl; auto.
      * intros r1 d1. destruct (String.eqb_spec r1 r0) as [->|N].
        -- rewrite get_set_same. intros [= <-].
           apply HP; simpl; auto.
           intros ->. discriminate.
        -- rewrite get_set_other by assumption. apply Hinv.
Qed.

Lemma loop_result_keys rs :
  forall h inv,
    keys (snd (loop_result aws rs h inv))
    = fold_left remember (filter not_all rs) (keys inv).
Proof.
  induction rs as [|r rs IH]; intros h inv; simpl; auto.
  unfold not_all at 1. destruct (r =? "ALL"); simpl.
  - apply IH.
  - rewrite IH, keys_set. reflexivity.
Qed.

End Loop.

(** *** Facts on [distinct] *)

Lemma remember_In seen r x : In x (remember seen r) <-> In x seen \/ x = r.
Proof.
  unfold remember. destruct (existsb (String.eqb r) seen) eqn:E.
  - split; auto. intros [H| ->]; auto.
    apply existsb_exists in E as [y [Hy Ey]].
    apply String.eqb_eq in Ey. now subst.
  - rewrite in_app_iff. simpl. intuition.
Qed.

Lemma fold_remember_In rs :
  forall seen x, In x (fold_left remember rs seen) <-> In x seen \/ In x rs.
Proof.
  induction rs as [|r rs IH]; intros seen x; simpl.
  - tauto.
  - rewrite IH, remember_In. intuition.
Qed.

Lemma distinct_In rs x : In x (distinct rs) <-> In x rs.
Proof. unfold distinct. rewrite fold_remember_In. simpl. tauto. Qed.

Lemma remember_NoDup seen r : NoDup seen -> NoDup (remember seen r).
Proof.
  intros N. unfold remember.
  destruct (existsb (String.eqb r) seen) eqn:E; auto.
  apply NoDup_app; auto.
  - constructor; [simpl; tauto|constructor].
  - intros x Hx [<-|[]].
    assert (existsb (String.eqb r) seen = true); [|congruence].
    apply existsb_exists. exists r. split; auto. apply String.eqb_refl.
Qed.

Lemma fold_remember_NoDup rs :
  forall seen, NoDup seen -> NoDup (fold_left remember rs seen).
Proof.
  induction rs as [|r rs IH]; intros seen N; simpl; auto.
  apply IH, remember_NoDup, N.
Qed.

Lemma distinct_NoDup rs : NoDup (distinct rs).
Proof. apply fold_remember_NoDup. constructor. Qed.

(** A listing without repetition is left as it is. *)
Lemma fold_remember_fresh rs :
  forall seen,
    NoDup (seen ++ rs) -> fold_left remember rs seen = seen ++ rs.
Proof.
  induction rs as [|r rs IH]; intros seen N; simpl.
  - now rewrite app_nil_r.
  - assert (E : remember seen r = seen ++ [r]).
    { unfold remember. destruct (existsb (String.eqb r) seen) eqn:E; auto.
      apply existsb_exists in E as [y [Hy Ey]].
      apply String.eqb_eq in Ey; subst y.
      apply NoDup_remove_2 in N. exfalso. apply N.
      apply in_or_app; auto. }
    rewrite E, IH; rewrite <- app_assoc; simpl; auto.
Qed.

Lemma distinct_NoDup_id rs : NoDup rs -> distinct rs = rs.
Proof. intros N. unfold distinct. now rewrite fold_remember_fresh. Qed.

(** ** Counting the calls of a run *)

Section CallCounts.

Variable aws : cloud.

Lemma bucket_listings_app l l' :
  bucket_listings (l ++ l') = bucket_listings l + bucket_listings l'.
Proof.
  unfold bucket_listings. now rewrite filter_app, length_app.
Qed.

Lemma ec2_calls_listings r h : bucket_listings (ec2_calls aws r h) = 0.
Proof.
  unfold ec2_calls.
  destruct (describe_instances aws r h); auto.
  destruct (describe_volumes aws r _); auto.
  destruct (describe_snapshots aws r _); auto.
Qed.

Lemma s3_scan_listings r bs :
  forall h, bucket_listings (snd (s3_scan aws r bs h)) = bucket_listings h.
Proof.
  induction bs as [|b bs IH]; intros h; simpl; auto.
  destruct (get_bucket_location aws b h); auto.
  specialize (IH (GetBucketLocation b :: h)).
  destruct (s3_scan aws r bs _). simpl in *. now rewrite IH.
Qed.

(** Every pass lists the buckets once more. *)
Lemma pass_calls_listings r h :
  bucket_listings (pass_calls aws r h) = S (bucket_listings h).
Proof.
  unfold pass_calls, s3_pass.
  change (bucket_listings (DescribeDBInstances r :: ?l))
    with (bucket_listings l).
  destruct (list_buckets aws _).
  - rewrite s3_scan_listings.
    change (bucket_listings (ListBuckets :: ?l))
      with (S (bucket_listings l)).
    now rewrite bucket_listings_app, ec2_calls_listings.
  - simpl snd.
    change (bucket_listings (ListBuckets :: ?l))
      with (S (bucket_listings l)).
    now rewrite bucket_listings_app, ec2_calls_listings.
Qed.

Lemma loop_result_listings rs :
  forall h inv,
    bucket_listings (fst (loop_result aws rs h inv))
    = List.length (filter not_all rs) + bucket_listings h.
Proof.
  induction rs as [|r rs IH]; intros h inv; simpl; auto.
  unfold not_all at 1. destruct (r =? "ALL"); simpl.
  - apply IH.
  - rewrite IH, pass_calls_listings. lia.
Qed.

Lemma ec2_calls_started r h : passes_started (ec2_calls aws r h) = [r].
Proof.
  unfold ec2_calls.
  destruct (describe_instances aws r h); auto.
  destruct (describe_volumes aws r _); auto.
  destruct (describe_snapshots aws r _); auto.
Qed.

Lemma passes_started_app l l' :
  passes_started (l ++ l') = passes_started l' ++ passes_started l.
Proof.
  induction l as [|c l IH]; simpl.
  - now rewrite app_nil_r.
  - destruct c; auto. now rewrite IH, app_assoc.
Qed.

Lemma s3_scan_started r bs :
  forall h, passes_started (snd (s3_scan aws r bs h)) = passes_started h.
Proof.
  induction bs as [|b bs IH]; intros h; simpl; auto.
  destruct (get_bucket_location aws b h); auto.
  specialize (IH (GetBucketLocation b :: h)).
  destruct (s3_scan aws r bs _). simpl in *. now rewrite IH.
Qed.

Lemma pass_calls_started r h :
  passes_started (pass_calls aws r h) = passes_started h ++ [r].
Proof.
  unfold pass_calls, s3_pass. simpl.
  destruct (list_buckets aws _).
  - rewrite s3_scan_started. simpl.
    now rewrite passes_started_app, ec2_calls_started.
  - simpl. now rewrite passes_started_app, ec2_calls_started.
Qed.

Lemma loop_result_started rs :
  forall h inv,
    passes_started (fst (loop_result aws rs h inv))
    = passes_started h ++ filter not_all rs.
Proof.
  induction rs as [|r rs IH]; intros h inv; simpl.
  - now rewrite app_nil_r.
  - unfold not_all at 1. destruct (r =? "ALL"); simpl.
    + apply IH.
    + rewrite IH, pass_calls_started, <- app_assoc. reflexivity.
Qed.

End CallCounts.

(** ** The bucket listing is issued once per pass (C1) *)

(** C1, as amended: in every run the bucket listing is issued once for
    each discovered region entry other than ["ALL"], that is once per pass
    of the loop, and not at all when the region listing fails. *)
Theorem bucket_listing_once_per_pass (aws : cloud) :
  bucket_listings (calls_of_run aws)
  = match describe_regions aws [] with
    | Ok regions => List.length (filter not_all regions)
    | Fails => 0
    end.
Proof.
  destruct (run_spec aws) as [-> _]. unfold run_result.
  destruct (describe_regions aws []) as [regions|]; [|reflexivity].
  rewrite loop_result_listings.
  change (bucket_listings [DescribeRegions]) with 0. lia.
Qed.

(** C1, as stated, fails for an account with two regions: the buckets are
    listed twice in one run; and the pass over the second region works
    from its own listing, not from the first one: a bucket that only the
    second listing names is stored. *)
Lemma bucket_listing_twice_for_two_regions :
  (describe_regions Sample.two_regions [] = Ok ["r1"; "r2"]
   /\ bucket_listings (calls_of_run Sample.two_regions) = 2
   /\ bucket_listings (calls_of_run Sample.two_regions) <> 1)
  /\ (list_buckets Sample.new_bucket [DescribeRegions] = Ok ["b1"]
      /\ bucket_listings (calls_of_run Sample.new_bucket) = 2
      /\ cell (snd (run Sample.new_bucket)) "r2" "S3Buckets" = Some ["b2"]).
Proof. repeat split. vm_compute. discriminate. Qed.

(** ** No region discovered (C2) *)

(** C2, as amended: when the region listing fails or names no region,
    [get_all_resources] still returns; it returns the empty dictionary
    (without an entry for ["ALL"]) after the single call
    [describe_regions]; the view combined for ["ALL"] from it has the six
    kinds with empty sequences; and the run ends in one and the same
    state in both cases: nothing records the failure. *)
Theorem no_regions_empty_inventory (aws : cloud) :
  describe_regions aws [] = Fails \/ describe_regions aws [] = Ok [] ->
  run aws = (Build_state [DescribeRegions] [] [], Returned [])
  /\ get "ALL" ([] : inventory) = None
  /\ combine_all [] = Returned empty_region_data.
Proof.
  intros H. split; [|split; reflexivity].
  unfold run, get_all_resources, initial.
  unfold bind at 1, new_resources at 1; simpl.
  unfold bind at 1, try_except, discover_regions.
  unfold bind at 1, bind at 1, invoke at 1; simpl.
  destruct H as [-> | ->]; reflexivity.
Qed.

Lemma no_regions_empty_inventory_witness :
  describe_regions Sample.denied [] = Fails
  /\ run Sample.denied = (Build_state [DescribeRegions] [] [], Returned [])
  /\ get "ALL" ([] : inventory) = None
  /\ combine_all [] = Returned empty_region_data.
Proof.
  split; [reflexivity|].
  apply (no_regions_empty_inventory Sample.denied). left. reflexivity.
Defined.

(** C2, as stated, fails: after a refused region listing the inventory has
    no entry at all, in particular none for ["ALL"]. *)
Lemma failed_discovery_has_no_sentinel :
  describe_regions Sample.denied [] = Fails
  /\ snd (run Sample.denied) = Returned []
  /\ snd (run Sample.denied) <> Returned [("ALL", empty_region_data)]
  /\ cell (snd (run Sample.denied)) "ALL" "Instances" = None.
Proof. repeat split. vm_compute. discriminate. Qed.

(** ** The regions are taken as listed (C7) *)

(** C7, as amended: on a successful region listing the discovery step
    returns the names exactly as the provider listed them, in that order,
    neither sorted nor deduplicated; the passes of the run are started in
    that order, one for every listed name other than ["ALL"]. *)
Theorem regions_taken_as_listed (aws : cloud) (regions : list string) :
  describe_regions aws [] = Ok regions ->
  snd (discover_regions aws initial) = Returned regions
  /\ passes_started (calls_of_run aws) = filter not_all regions.
Proof.
  intros H. split.
  - unfold discover_regions, bind, invoke, initial; simpl. now rewrite H.
  - destruct (run_spec aws) as [-> _]. unfold run_result. rewrite H.
    now rewrite loop_result_started.
Qed.

Lemma regions_taken_as_listed_witness :
  snd (discover_regions Sample.two_regions initial) = Returned ["r1"; "r2"]
  /\ passes_started (calls_of_run Sample.two_regions)
     = filter not_all ["r1"; "r2"].
Proof.
  apply (regions_taken_as_listed Sample.two_regions). reflexivity.
Defined.

(** C7, as stated, fails when the provider repeats a name: the discovery
    step returns it twice and the region is collected twice. *)
Lemma repeated_region_kept :
  describe_regions Sample.repeated_region [] = Ok ["r1"; "r1"]
  /\ snd (discover_regions Sample.repeated_region initial)
     = Returned ["r1"; "r1"]
  /\ ~ NoDup ["r1"; "r1"]
  /\ passes_started (calls_of_run Sample.repeated_region) = ["r1"; "r1"].
Proof.
  repeat split.
  intros N. inversion N as [|x l H _]. apply H. simpl. auto.
Qed.

(** ** The six kinds of every region inventory (C4) *)
Lemma keys_kinds_inv (d : region_inventory) :
  keys d = kinds ->
  exists i v s g b r,
    d = [ ("Instances", i); ("Volumes", v); ("Snapshots", s);
          ("SecurityGroups", g); ("S3Buckets", b); ("RDSInstances", r) ].
Proof.
  unfold keys, kinds. intros H.
  repeat (destruct d as [|[? ?] d]; [discriminate|]; simpl in H;
          injection H as <- H).
  destruct d; [|discriminate]. repeat eexists.
Qed.

Lemma keys_kinds_filled (d : region_inventory) : keys d = kinds -> filled d.
Proof.
  intros H k Hk. apply In_keys_get. now rewrite H.
Qed.

Lemma pass_data_keys (aws : cloud) r h : keys (pass_data aws r h) = kinds.
Proof.
  unfold pass_data.
  destruct (ec2_items aws r h) as [[[i v] s] g].
  destruct (s3_pass aws r _) as [b h2]. reflexivity.
Qed.

(** Every entry of the returned dictionary was stored by a pass. *)
Lemma run_result_entries (aws : cloud)
  (P : string -> region_inventory -> Prop) :
  (forall regions r h,
      describe_regions aws [] = Ok regions ->
      In r regions -> r <> "ALL" -> P r (pass_data aws r h)) ->
  forall r d, get r (snd (run_result aws)) = Some d -> P r d.
Proof.
  intros HP r d. unfold run_result.
  destruct (describe_regions aws []) as [regions|] eqn:E; simpl.
  - apply loop_result_get.
    + intros; eapply HP; eauto.
    + discriminate.
  - discriminate.
Qed.

Lemma run_result_keys (aws : cloud) :
  keys (snd (run_result aws))
  = match describe_regions aws [] with
    | Ok regions => distinct (filter not_all regions)
    | Fails => []
    end.
Proof.
  unfold run_result.
  destruct (describe_regions aws []) as [regions|]; auto.
  now rewrite loop_result_keys.
Qed.

(** *** The view combined for ["ALL"] *)

Lemma extend_keys_kinds i v s g b r i' v' s' g' b' r' :
  extend_keys kinds
    [ ("Instances", i); ("Volumes", v); ("Snapshots", s);
      ("SecurityGroups", g); ("S3Buckets", b); ("RDSInstances", r) ]
    [ ("Instances", i'); ("Volumes", v'); ("Snapshots", s');
      ("SecurityGroups", g'); ("S3Buckets", b'); ("RDSInstances", r') ]
  = Returned
      [ ("Instances", i ++ i'); ("Volumes", v ++ v'); ("Snapshots", s ++ s');
        ("SecurityGroups", g ++ g'); ("S3Buckets", b ++ b');
        ("RDSInstances", r ++ r') ].
Proof. reflexivity. Qed.

Lemma combine_loop_kinds (inv : inventory) :
  (forall r d, In (r, d) inv -> keys d = kinds) ->
  forall combined,
    keys combined = kinds ->
    exists combined',
      combine_loop inv combined = Returned combined'
      /\ keys combined' = kinds
      /\ forall k, In k kinds ->
           items_of k combined'
           = items_of k combined
               ++ flat_map (fun entry => items_of k (snd entry))
                    (filter (fun entry => not_all (fst entry)) inv).
Proof.
  induction inv as [|[r d] inv IH]; intros Hinv combined Hc; simpl.
  - exists combined. repeat split; auto.
    intros. now rewrite app_nil_r.
  - unfold not_all at 1. simpl fst. destruct (r =? "ALL"); simpl.
    + apply IH; auto. intros; eapply Hinv; simpl; eauto.
    + destruct (keys_kinds_inv combined Hc)
        as (i & v & s & g & b & x & ->).
      destruct (keys_kinds_inv d (Hinv r d (or_introl eq_refl)))
        as (i' & v' & s' & g' & b' & x' & ->).
      change (keys _) with kinds at 1. rewrite extend_keys_kinds.
      destruct (IH (fun r d H => Hinv r d (or_intror H))
                  [ ("Instances", i ++ i'); ("Volumes", v ++ v');
                    ("Snapshots", s ++ s'); ("SecurityGroups", g ++ g');
                    ("S3Buckets", b ++ b'); ("RDSInstances", x ++ x') ]
                  eq_refl) as (c & R & K & I).
      exists c. repeat split; auto.
      intros k Hk. rewrite (I k Hk), app_assoc. f_equal.
      simpl in Hk.
      repeat (destruct Hk as [<-|Hk]; [reflexivity|]). contradiction.
Qed.

Lemma get_In_entry {V} k (v : V) (d : dict V) :
  In (k, v) d -> In k (keys d).
Proof. intros H. apply (in_map fst) in H. exact H. Qed.

Lemma get_of_entry {V} k (v : V) (d : dict V) :
  NoDup (keys d) -> In (k, v) d -> get k d = Some v.
Proof.
  induction d as [|[k' v'] d IH]; simpl; [tauto|].
  intros N [E|H].
  - injection E as -> ->. now rewrite String.eqb_refl.
  - inversion N as [|? ? N1 N2]; subst.
    destruct (String.eqb_spec k k') as [->|_]; auto.
    exfalso. apply N1. eapply get_In_entry; eauto.
Qed.

Lemma run_result_NoDup (aws : cloud) : NoDup (keys (snd (run_result aws))).
Proof.
  rewrite run_result_keys.
  destruct (describe_regions aws []); [apply distinct_NoDup|constructor].
Qed.

Lemma run_result_no_sentinel (aws : cloud) :
  ~ In "ALL" (keys (snd (run_result aws))).
Proof.
  rewrite run_result_keys.
  destruct (describe_regions aws []); [|simpl; tauto].
  rewrite distinct_In, filter_In. intros [_ H]. discriminate.
Qed.

Lemma filter_not_all_id (inv : inventory) :
  ~ In "ALL" (keys inv) ->
  filter (fun entry => not_all (fst entry)) inv = inv.
Proof.
  induction inv as [|[r d] inv IH]; simpl; auto.
  intros H. unfold not_all at 1. simpl.
  destruct (String.eqb_spec r "ALL") as [->|N]; simpl.
  - tauto.
  - rewrite IH; auto.
Qed.

(** The combination succeeds on what a run returns. *)
Lemma combine_run (aws : cloud) :
  exists combined,
    combine_all (snd (run_result aws)) = Returned combined
    /\ keys combined = kinds
    /\ forall k, In k kinds ->
         get k combined
         = Some (flat_map (fun entry => items_of k (snd entry))
                   (snd (run_result aws))).
Proof.
  destruct (combine_loop_kinds (snd (run_result aws))) with
    (combined := empty_region_data) as (c & R & K & I); auto.
  - intros r d H.
    apply (run_result_entries aws (fun _ d => keys d = kinds)) with (r := r).
    + intros. apply pass_data_keys.
    + apply get_of_entry; auto. apply run_result_NoDup.
  - exists c. repeat split; auto.
    intros k Hk. specialize (I k Hk).
    rewrite filter_not_all_id in I by apply run_result_no_sentinel.
    destruct (keys_kinds_filled c K k Hk) as [items G].
    unfold items_of at 1 in I. rewrite G in I. rewrite G, I.
    f_equal.
    simpl in Hk.
    repeat (destruct Hk as [<-|Hk]; [reflexivity|]). contradiction.
Qed.

(** C4: in every run [get_all_resources] returns, every region inventory
    of the returned dictionary has the six kind keys, each with a
    (possibly empty) sequence, and so has the inventory combined for the
    label ["ALL"]: no kind key is ever missing. *)
Theorem every_kind_present (aws : cloud) :
  exists inv combined,
    snd (run aws) = Returned inv
    /\ (forall r d, get r inv = Some d -> keys d = kinds /\ filled d)
    /\ combine_all inv = Returned combined
    /\ keys combined = kinds /\ filled combined.
Proof.
  destruct (run_spec aws) as [_ R].
  destruct (combine_run aws) as (c & C & K & _).
  exists (snd (run_result aws)), c. repeat split; auto.
  - revert r d H.
    apply (run_result_entries aws (fun _ d => keys d = kinds)).
    intros. apply pass_data_keys.
  - apply keys_kinds_filled. revert r d H.
    apply (run_result_entries aws (fun _ d => keys d = kinds)).
    intros. apply pass_data_keys.
  - now apply keys_kinds_filled.
Qed.

(** ** The view combined for ["ALL"] (C5) *)

(** C5: in every run, the sequence that the inventory combined for the
    label ["ALL"] holds for a kind is the concatenation of that kind's
    sequences over the entries of the returned dictionary, in their
    order; the entries are the discovered regions other than ["ALL"] in
    the order of the region listing (each at its first occurrence), and
    this combined inventory is the one [display_resources_for_region]
    formats for ["ALL"]. *)
Theorem all_view_is_concatenation (aws : cloud) :
  exists inv combined,
    snd (run aws) = Returned inv
    /\ combine_all inv = Returned combined
    /\ display_resources_for_region inv (Some "ALL")
       = Returned (Some ("Displaying resources for ALL regions.",
                         format_region_data "ALL" combined))
    /\ keys inv = match describe_regions aws [] with
                  | Ok regions => distinct (filter not_all regions)
                  | Fails => []
                  end
    /\ forall k, In k kinds ->
         get k combined
         = Some (flat_map (fun entry => items_of k (snd entry)) inv).
Proof.
  destruct (run_spec aws) as [_ R].
  destruct (combine_run aws) as (c & C & K & I).
  exists (snd (run_result aws)), c. repeat split; auto.
  - unfold display_resources_for_region. simpl. now rewrite C.
  - apply run_result_keys.
Qed.

(** When the provider lists every region once, the entries are in the
    very order of the listing. *)
Lemma all_view_order (aws : cloud) (regions : list string) :
  describe_regions aws [] = Ok regions ->
  NoDup regions ->
  keys (snd (run_result aws)) = filter not_all regions.
Proof.
  intros H N. rewrite run_result_keys, H.
  apply distinct_NoDup_id, NoDup_filter, N.
Qed.

(** ** The formatter (C8) *)
(** C8, as amended: [format_region_data] is a function of its two
    arguments alone; after the title line it emits one block per entry of
    the dictionary, in the key order of the dictionary it is given: the
    header line [key:], then the single line ["  - (none)"] when the
    sequence is empty and otherwise one line per item in the order
    stored, every block closed by an empty line.  For a region inventory
    that has the six kinds in the order the program writes them (as every
    inventory built by [get_all_resources] and by the combination for
    ["ALL"] has), the blocks come in that one fixed order of kinds. *)
Theorem format_kind_by_kind (region : string) (d : region_inventory) :
  format_lines region d
  = ("Resources in region: " ++ region ++ newline)%string
      :: flat_map (fun entry => kind_block (fst entry) (snd entry) ++ [""]) d
  /\ format_region_data region d
     = String.concat newline (format_lines region d)
  /\ (keys d = kinds ->
      format_lines region d = format_by_kind region d
      /\ format_region_data region d
         = String.concat newline (format_by_kind region d)).
Proof.
  split; [|split; [reflexivity|]].
  - unfold format_lines. f_equal. apply flat_map_ext.
    intros [k items]. reflexivity.
  - intros H.
    destruct (keys_kinds_inv d H) as (i & v & s & g & b & r & ->).
    split; reflexivity.
Qed.

Lemma format_kind_by_kind_witness :
  keys Scenario.stocked = kinds
  /\ format_lines "r1" Scenario.stocked
     = [ ("Resources in region: r1" ++ newline)%string;
         "Instances:"; "  - i-1"; "  - i-2"; "";
         "Volumes:"; "  - (none)"; "";
         "Snapshots:"; "  - snap-1"; "";
         "SecurityGroups:"; "  - web (sg-1)"; "";
         "S3Buckets:"; "  - b2"; "  - b1"; "";
         "RDSInstances:"; "  - (none)"; "" ]
  /\ format_lines "r1" Scenario.stocked
     = format_by_kind "r1" Scenario.stocked
  /\ format_region_data "r1" Scenario.stocked
     = String.concat newline (format_by_kind "r1" Scenario.stocked).
Proof.
  split; [reflexivity|]. split; [reflexivity|].
  apply (format_kind_by_kind "r1" Scenario.stocked). reflexivity.
Defined.

(** C8, as stated, fails: the order of the blocks is not fixed by the
    formatter, it is the key order of the dictionary: a dictionary with
    the six kinds in another order is listed in that other order. *)
Lemma format_follows_dictionary_order :
  Permutation (keys Scenario.shuffled) kinds
  /\ (forall k, In k kinds ->
        exists items, get k Scenario.shuffled = Some items)
  /\ format_lines "r1" Scenario.shuffled
     = [ ("Resources in region: r1" ++ newline)%string;
         "Volumes:"; "  - vol-1"; "";
         "Instances:"; "  - i-1"; "";
         "Snapshots:"; "  - (none)"; "";
         "SecurityGroups:"; "  - (none)"; "";
         "S3Buckets:"; "  - (none)"; "";
         "RDSInstances:"; "  - (none)"; "" ]
  /\ format_lines "r1" Scenario.shuffled
     <> format_by_kind "r1" Scenario.shuffled.
Proof.
  split; [apply perm_swap|].
  split.
  { intros k Hk. apply In_keys_get. simpl in *. tauto. }
  split; [reflexivity|]. discriminate.
Qed.

(** ** Where a bucket is stored (C6, C10) *)

Lemma bucket_matches_governing loc r :
  bucket_matches loc r = true -> governing_region loc = r.
Proof.
  destruct loc as [x|]; simpl; intros H; apply String.eqb_eq in H; auto.
Qed.

Section Buckets.

Variable aws : cloud.

Lemma pass_data_buckets r h :
  get "S3Buckets" (pass_data aws r h)
  = Some (fst (s3_pass aws r (ec2_calls aws r h ++ h))).
Proof.
  unfold pass_data.
  destruct (ec2_items aws r h) as [[[i v] s] g].
  destruct (s3_pass aws r _) as [b h2]. reflexivity.
Qed.

(** A bucket is kept for [r] only after a lookup that placed it there. *)
Lemma s3_scan_In r b bs :
  forall h,
    In b (fst (s3_scan aws r bs h)) ->
    exists h' loc,
      get_bucket_location aws b h' = Ok loc
      /\ bucket_matches loc r = true.
Proof.
  induction bs as [|b0 bs IH]; intros h; simpl; [tauto|].
  destruct (get_bucket_location aws b0 h) as [loc|] eqn:E; simpl;
    [|tauto].
  specialize (IH (GetBucketLocation b0 :: h)).
  destruct (s3_scan aws r bs _) as [kept h']. simpl in *.
  rewrite in_app_iff. intros [H|H]; auto.
  destruct (bucket_matches loc r) eqn:B; simpl in H; [|tauto].
  destruct H as [<-|[]]. eauto.
Qed.

Lemma s3_pass_In r b h :
  In b (fst (s3_pass aws r h)) ->
  exists h' loc,
    get_bucket_location aws b h' = Ok loc /\ bucket_matches loc r = true.
Proof.
  unfold s3_pass. destruct (list_buckets aws h); simpl; [|tauto].
  apply s3_scan_In.
Qed.

(** A bucket kept by the lookups was listed. *)
Lemma s3_scan_listed r bs :
  forall h b, In b (fst (s3_scan aws r bs h)) -> In b bs.
Proof.
  induction bs as [|b0 bs IH]; intros h b; simpl; auto.
  destruct (get_bucket_location aws b0 h) as [loc|]; simpl; [|tauto].
  specialize (IH (GetBucketLocation b0 :: h) b).
  destruct (s3_scan aws r bs _) as [kept h']. simpl in *.
  rewrite in_app_iff. intros [H|H]; auto.
  destruct (bucket_matches loc r); simpl in H; tauto.
Qed.

(** When no lookup fails, a bucket without location is kept for
    [us-east-1] as often as it is listed. *)
Lemma s3_scan_default b bs :
  (forall h b', In b' bs -> get_bucket_location aws b' h <> Fails) ->
  (forall h, get_bucket_location aws b h = Ok None) ->
  forall h,
    count_occ string_dec (fst (s3_scan aws "us-east-1" bs h)) b
    = count_occ string_dec bs b.
Proof.
  intros Hok Hb. induction bs as [|b0 bs IH]; intros h; auto.
  cbn [s3_scan].
  destruct (get_bucket_location aws b0 h) as [loc|] eqn:E.
  2:{ exfalso. apply (Hok h b0); simpl; auto. }
  assert (IH' := IH (fun h b' H => Hok h b' (or_intror H))
                   (GetBucketLocation b0 :: h)).
  destruct (s3_scan aws "us-east-1" bs _) as [kept h'].
  cbn [fst] in *. rewrite count_occ_app, IH'. cbn [count_occ].
  destruct (string_dec b0 b) as [->|N].
  - rewrite Hb in E. injection E as <-. simpl.
    destruct (string_dec b b); [reflexivity|contradiction].
  - destruct (bucket_matches loc "us-east-1"); simpl; auto.
    destruct (string_dec b0 b); [contradiction|reflexivity].
Qed.

(** The lookups that succeed before one fails leave their buckets. *)
Lemma s3_scan_prefix r (loc : string -> option string) done rest :
  (forall h b, In b done -> get_bucket_location aws b h = Ok (loc b)) ->
  forall h,
    exists more,
      fst (s3_scan aws r (done ++ rest) h)
      = filter (fun b => bucket_matches (loc b) r) done ++ more.
Proof.
  induction done as [|b done IH]; intros H h.
  - simpl. eauto.
  - cbn [app s3_scan filter]. rewrite (H h b) by (simpl; auto).
    destruct (IH (fun h b' Hb => H h b' (or_intror Hb))
                (GetBucketLocation b :: h)) as [more E].
    destruct (s3_scan aws r (done ++ rest) _) as [kept h'].
    cbn [fst] in *. subst kept.
    destruct (bucket_matches (loc b) r); simpl; eauto.
Qed.

End Buckets.

(** A discovered region other than ["ALL"] has its entry. *)
Lemma run_result_has_region (aws : cloud) regions r :
  describe_regions aws [] = Ok regions ->
  In r regions -> r <> "ALL" ->
  exists d, get r (snd (run_result aws)) = Some d.
Proof.
  intros H I N. apply In_keys_get.
  rewrite run_result_keys, H, distinct_In, filter_In. split; auto.
  unfold not_all. destruct (String.eqb_spec r "ALL"); auto.
Qed.

(** C10: a bucket whose governing region (its location, or [us-east-1]
    when it has none) is not among the discovered regions is in no region
    inventory of the returned dictionary. *)
Theorem foreign_bucket_nowhere (aws : cloud) (regions : list string)
  (b : string) :
  describe_regions aws [] = Ok regions ->
  (forall h loc,
      get_bucket_location aws b h = Ok loc ->
      ~ In (governing_region loc) regions) ->
  exists inv,
    snd (run aws) = Returned inv
    /\ forall r d items,
         get r inv = Some d -> get "S3Buckets" d = Some items ->
         ~ In b items.
Proof.
  intros HR Hb. destruct (run_spec aws) as [_ R].
  exists (snd (run_result aws)). split; auto.
  intros r d items G. revert items. revert r d G.
  apply (run_result_entries aws
           (fun r d => forall items,
                get "S3Buckets" d = Some items -> ~ In b items)).
  intros regions' r h HR' Hr _ items. rewrite pass_data_buckets.
  intros [= <-] I.
  apply s3_pass_In in I as (h' & loc & L & B).
  apply (Hb h' loc L). rewrite (bucket_matches_governing _ _ B).
  congruence.
Qed.

Lemma foreign_bucket_nowhere_witness :
  describe_regions Sample.legacy_bucket [] = Ok ["eu-west-1"]
  /\ exists inv,
       snd (run Sample.legacy_bucket) = Returned inv
       /\ forall r d items,
            get r inv = Some d -> get "S3Buckets" d = Some items ->
            ~ In "old" items.
Proof.
  split; [reflexivity|].
  apply (foreign_bucket_nowhere Sample.legacy_bucket ["eu-west-1"] "old").
  - reflexivity.
  - intros h loc [= <-]. simpl. intros [H|[]]. discriminate.
Defined.

(** When the lookups of the buckets listed before it succeed, a bucket
    without location that is listed once is kept once for [us-east-1],
    whatever the lookups listed after it do. *)
Lemma s3_scan_default_once (aws : cloud) (b : string)
  (before after : list string) :
  (forall h b', In b' before -> get_bucket_location aws b' h <> Fails) ->
  (forall h, get_bucket_location aws b h = Ok None) ->
  ~ In b before ->
  ~ In b after ->
  forall h,
    count_occ string_dec
      (fst (s3_scan aws "us-east-1" (before ++ b :: after) h)) b = 1.
Proof.
  intros Hok Hb Nb Na. induction before as [|b0 before IH]; intros h.
  - cbn [app s3_scan]. rewrite Hb.
    pose proof (s3_scan_listed aws "us-east-1" after
                  (GetBucketLocation b :: h) b) as L.
    destruct (s3_scan aws "us-east-1" after _) as [kept h'].
    cbn [fst] in *. simpl.
    destruct (string_dec b b); [|contradiction].
    f_equal. apply count_occ_not_In. tauto.
  - cbn [app s3_scan].
    destruct (get_bucket_location aws b0 h) as [loc|] eqn:E.
    2:{ exfalso. apply (Hok h b0); simpl; auto. }
    assert (IH' := IH (fun h b' H => Hok h b' (or_intror H))
                     (fun H => Nb (or_intror H))
                     (GetBucketLocation b0 :: h)).
    destruct (s3_scan aws "us-east-1" (before ++ b :: after) _)
      as [kept h'].
    cbn [fst] in *. rewrite count_occ_app, IH'.
    destruct (bucket_matches loc "us-east-1"); simpl; auto.
    destruct (string_dec b0 b) as [->|_]; [|reflexivity].
    exfalso. apply Nb. simpl. auto.
Qed.

(** C6, as amended: a bucket without location metadata that the listing
    names once is stored in the inventory of [us-east-1], there exactly
    once, provided [us-east-1] is among the discovered regions and no
    location lookup of a bucket listed before it fails (the lookups of
    the buckets listed after it may fail); it is in no other region's
    bucket sequence. *)
Theorem unlocated_bucket_in_default_region (aws : cloud)
  (regions before after : list string) (b : string) :
  describe_regions aws [] = Ok regions ->
  In "us-east-1" regions ->
  (forall h, list_buckets aws h = Ok (before ++ b :: after)) ->
  (forall h b', In b' before -> get_bucket_location aws b' h <> Fails) ->
  (forall h, get_bucket_location aws b h = Ok None) ->
  count_occ string_dec (before ++ b :: after) b = 1 ->
  exists inv d items,
    snd (run aws) = Returned inv
    /\ get "us-east-1" inv = Some d
    /\ get "S3Buckets" d = Some items
    /\ count_occ string_dec items b = 1
    /\ forall r d' items',
         r <> "us-east-1" ->
         get r inv = Some d' -> get "S3Buckets" d' = Some items' ->
         ~ In b items'.
Proof.
  intros HR Hin HL Hok Hb Hc. destruct (run_spec aws) as [_ R].
  assert (Nb : ~ In b before /\ ~ In b after).
  { rewrite count_occ_app in Hc. simpl in Hc.
    destruct (string_dec b b) as [_|N]; [|contradiction].
    split; apply (count_occ_not_In string_dec); lia. }
  destruct Nb as [Nb Na].
  destruct (run_result_has_region aws regions "us-east-1" HR Hin)
    as [d G]; [discriminate|].
  assert (P : forall r d, get r (snd (run_result aws)) = Some d ->
     (r = "us-east-1" ->
        exists items, get "S3Buckets" d = Some items
                      /\ count_occ string_dec items b = 1)
     /\ (r <> "us-east-1" ->
           forall items, get "S3Buckets" d = Some items -> ~ In b items)).
  { apply (run_result_entries aws
      (fun r d =>
         (r = "us-east-1" ->
          exists items, get "S3Buckets" d = Some items
                        /\ count_occ string_dec items b = 1)
         /\ (r <> "us-east-1" ->
             forall items,
               get "S3Buckets" d = Some items -> ~ In b items))).
    intros regions' r h _ _ _. split.
    - intros ->. rewrite pass_data_buckets. eexists. split; [reflexivity|].
      unfold s3_pass. rewrite HL. now apply s3_scan_default_once.
    - intros N items. rewrite pass_data_buckets. intros [= <-] I.
      apply s3_pass_In in I as (h' & loc & L & B).
      rewrite Hb in L. injection L as <-.
      apply bucket_matches_governing in B. simpl in B. congruence. }
  destruct (P _ _ G) as [P1 _]. destruct (P1 eq_refl) as (items & GI & C).
  exists (snd (run_result aws)), d, items. repeat split; auto.
  intros r d' items' N G' GI'. destruct (P _ _ G') as [_ P2].
  now apply (P2 N items').
Qed.

Lemma unlocated_bucket_in_default_region_witness :
  describe_regions Scenario.locked_last [] = Ok ["eu-west-1"; "us-east-1"]
  /\ get_bucket_location Scenario.locked_last "locked" [] = Fails
  /\ count_occ string_dec ([] ++ "b" :: ["locked"]) "b" = 1
  /\ exists inv d items,
       snd (run Scenario.locked_last) = Returned inv
       /\ get "us-east-1" inv = Some d
       /\ get "S3Buckets" d = Some items
       /\ count_occ string_dec items "b" = 1
       /\ forall r d' items',
            r <> "us-east-1" ->
            get r inv = Some d' -> get "S3Buckets" d' = Some items' ->
            ~ In "b" items'.
Proof.
  split; [reflexivity|]. split; [reflexivity|]. split; [reflexivity|].
  apply (unlocated_bucket_in_default_region Scenario.locked_last
           ["eu-west-1"; "us-east-1"] [] ["locked"] "b").
  - reflexivity.
  - simpl. auto.
  - reflexivity.
  - simpl. tauto.
  - reflexivity.
  - reflexivity.
Defined.

(** C6, as stated, fails in two ways: a bucket without location is stored
    nowhere when [us-east-1] is not among the discovered regions, and
    nowhere either when the location lookup of a bucket listed before it
    is refused. *)
Lemma unlocated_bucket_lost :
  (list_buckets Sample.no_default_region [] = Ok ["b"]
   /\ get_bucket_location Sample.no_default_region "b" [] = Ok None
   /\ snd (run Sample.no_default_region)
      = Returned [("eu-west-1", empty_region_data)]
   /\ cell (snd (run Sample.no_default_region)) "us-east-1" "S3Buckets"
      = None)
  /\ (list_buckets Sample.locked_first [] = Ok ["locked"; "b"]
      /\ get_bucket_location Sample.locked_first "b" [] = Ok None
      /\ snd (run Sample.locked_first)
         = Returned [("us-east-1", empty_region_data)]
      /\ cell (snd (run Sample.locked_first)) "us-east-1" "S3Buckets"
         = Some []).
Proof. repeat split. Qed.

(** ** What a pass keeps when a later call fails (C9) *)

Section Retention.

Variable aws : cloud.






Lemma pass_keeps_buckets r h loc done rest :
  list_buckets aws (ec2_calls aws r h ++ h) = Ok (done ++ rest) ->
  (forall h' b, In b done -> get_bucket_location aws b h' = Ok (loc b)) ->
  exists more,
    get "S3Buckets" (pass_data aws r h)
    = Some (filter (fun b => bucket_matches (loc b) r) done ++ more).
Proof.
  intros HL Hloc. rewrite pass_data_buckets. unfold s3_pass. rewrite HL.
  destruct (s3_scan_prefix aws r loc done rest Hloc
              (ListBuckets :: ec2_calls aws r h ++ h)) as [more ->].
  eauto.
Qed.

End Retention.

(** ** One failing query (C3) *)

Section Served.

Variables (a : account) (fault : option (string * probe)).

Lemma current_region_ec2 r h :
  current_region (ec2_calls (serve a fault) r h ++ h) = Some r.
Proof.
  unfold ec2_calls.
  destruct (describe_instances _ r h); auto.
  destruct (describe_volumes _ r _); auto.
  destruct (describe_snapshots _ r _); auto.
Qed.

Lemma s3_scan_served r bs :
  forall h,
    fst (s3_scan (serve a fault) r bs h)
    = filter (fun b => bucket_matches (location_of a b) r) bs.
Proof.
  induction bs as [|b bs IH]; intros h; simpl; auto.
  specialize (IH (GetBucketLocation b :: h)).
  destruct (s3_scan (serve a fault) r bs _) as [kept h']. simpl in *.
  rewrite IH. now destruct (bucket_matches (location_of a b) r).
Qed.

Lemma pass_data_served r h :
  pass_data (serve a fault) r h = served_data a fault r.
Proof.
  unfold pass_data, served_data.
  assert (B : fst (s3_pass (serve a fault) r
                     (ec2_calls (serve a fault) r h ++ h))
              = if fails_here fault Buckets (Some r) then []
                else filter (fun b => bucket_matches (location_of a b) r)
                       (buckets_of a)).
  { unfold s3_pass. cbn [list_buckets serve].
    rewrite current_region_ec2. unfold answer.
    destruct (fails_here fault Buckets (Some r)); auto.
    apply s3_scan_served. }
  destruct (s3_pass _ r _) as [b h2]. cbn [fst] in B. subst b.
  unfold ec2_items, rds_items. cbn [serve describe_instances
    describe_volumes describe_snapshots describe_security_groups
    describe_db_instances]. unfold answer.
  destruct (fails_here fault Instances (Some r)),
           (fails_here fault Volumes (Some r)),
           (fails_here fault Snapshots (Some r)),
           (fails_here fault SecurityGroups (Some r)),
           (fails_here fault Databases (Some r)); reflexivity.
Qed.

Lemma served_entries r d :
  get r (snd (run_result (serve a fault))) = Some d ->
  d = served_data a fault r.
Proof.
  apply (run_result_entries (serve a fault)
           (fun r d => d = served_data a fault r)).
  intros. apply pass_data_served.
Qed.

Lemma served_keys :
  keys (snd (run_result (serve a fault)))
  = distinct (filter not_all (regions_of a)).
Proof. now rewrite run_result_keys. Qed.

End Served.

(** The effect of one fault on what a pass stores. *)
Lemma served_data_fault (a : account) (R r : string) (K k : probe) :
  get (key_of k) (served_data a (Some (R, K)) r)
  = if (r =? R) && blanked K k then Some []
    else get (key_of k) (served_data a None r).
Proof.
  unfold served_data, fails_here. rewrite (String.eqb_sym r R).
  destruct (R =? r); destruct K, k; reflexivity.
Qed.

Section RefusedLookup.

Variables (a : account) (R b : string).

Lemma current_region_after_ec2 (aws : cloud) r h :
  current_region (ec2_calls aws r h ++ h) = Some r.
Proof.
  unfold ec2_calls.
  destruct (describe_instances aws r h); auto.
  destruct (describe_volumes aws r _); auto.
  destruct (describe_snapshots aws r _); auto.
Qed.

Lemma s3_scan_refused r bs :
  forall h,
    current_region h = Some r ->
    fst (s3_scan (serve_lookup a R b) r bs h)
    = filter (fun x => bucket_matches (location_of a x) r)
        (if r =? R then before_bucket b bs else bs).
Proof.
  induction bs as [|b0 bs IH]; intros h C.
  - now destruct (r =? R).
  - cbn [s3_scan serve_lookup get_bucket_location before_bucket].
    rewrite C. unfold answer.
    specialize (IH (GetBucketLocation b0 :: h) C).
    destruct (r =? R); [destruct (b0 =? b)|rewrite andb_false_r];
      cbn [andb]; [reflexivity| |];
      destruct (s3_scan (serve_lookup a R b) r bs _) as [kept h'];
      cbn [fst] in *; subst kept; cbn [filter];
      now destruct (bucket_matches (location_of a b0) r).
Qed.

(** What a pass over [r] stores when the lookup of [b] is refused in the
    passes over [R]. *)
Lemma pass_data_refused r h :
  pass_data (serve_lookup a R b) r h
  = [ ("Instances", List.concat (instances_of a r));
      ("Volumes", volumes_of a r);
      ("Snapshots", snapshots_of a r);
      ("SecurityGroups", map sg_item (security_groups_of a r));
      ("S3Buckets",
       filter (fun x => bucket_matches (location_of a x) r)
         (if r =? R then before_bucket b (buckets_of a)
          else buckets_of a));
      ("RDSInstances", map db_item (db_instances_of a r)) ].
Proof.
  unfold pass_data.
  assert (B : fst (s3_pass (serve_lookup a R b) r
                     (ec2_calls (serve_lookup a R b) r h ++ h))
              = filter (fun x => bucket_matches (location_of a x) r)
                  (if r =? R then before_bucket b (buckets_of a)
                   else buckets_of a)).
  { unfold s3_pass. cbn [list_buckets serve_lookup serve].
    unfold fails_here, answer. apply s3_scan_refused.
    cbn [current_region]. apply current_region_after_ec2. }
  destruct (s3_pass _ r _) as [x h2]. cbn [fst] in B. subst x.
  reflexivity.
Qed.

Lemma refused_entries r d :
  get r (snd (run_result (serve_lookup a R b))) = Some d ->
  d = pass_data (serve_lookup a R b) r [].
Proof.
  apply (run_result_entries (serve_lookup a R b)
           (fun r d => d = pass_data (serve_lookup a R b) r [])).
  intros. now rewrite !pass_data_refused.
Qed.

Lemma refused_keys :
  keys (snd (run_result (serve_lookup a R b)))
  = distinct (filter not_all (regions_of a)).
Proof. now rewrite run_result_keys. Qed.

End RefusedLookup.

(** C3, as amended: when, in an account whose answers are otherwise
    stable and successful, exactly one query fails with [ClientError],
    the run returns an inventory with the same regions as the run
    without failure, and:
    - when the query is the one for kind [K] in the passes over region
      [R] (one of the five describe queries, or the bucket listing for
      the bucket kind), the sequence at [(R, K)] is empty, and so are the
      sequences of [R] for the kinds queried after [K] in the same EC2
      block;
    - when the query is the location lookup of bucket [b] in the passes
      over [R], the bucket sequence of [R] keeps the buckets of [R]
      listed before [b] and loses [b] and the buckets listed after it;
    - every other (region, kind) pair holds exactly what it holds in the
      run without failure. *)
Theorem one_fault_blanks_its_block (a : account) (R : string) :
  exists inv,
    snd (run (serve a None)) = Returned inv
    /\ (forall K,
          exists inv',
            snd (run (serve a (Some (R, K)))) = Returned inv'
            /\ keys inv' = keys inv
            /\ forall r d,
                 get r inv = Some d ->
                 exists d',
                   get r inv' = Some d'
                   /\ forall k,
                        get (key_of k) d'
                        = if (r =? R) && blanked K k then Some []
                          else get (key_of k) d)
    /\ (forall b,
          exists inv',
            snd (run (serve_lookup a R b)) = Returned inv'
            /\ keys inv' = keys inv
            /\ forall r d,
                 get r inv = Some d ->
                 exists d',
                   get r inv' = Some d'
                   /\ forall k,
                        get (key_of k) d'
                        = if (r =? R) && probe_eqb k Buckets
                          then Some (filter
                                       (fun x =>
                                          bucket_matches (location_of a x) R)
                                       (before_bucket b (buckets_of a)))
                          else get (key_of k) d).
Proof.
  destruct (run_spec (serve a None)) as [_ R0].
  exists (snd (run_result (serve a None))). split; [exact R0|]. split.
  - intros K.
    destruct (run_spec (serve a (Some (R, K)))) as [_ R1].
    exists (snd (run_result (serve a (Some (R, K))))).
    repeat split; auto.
    + now rewrite !served_keys.
    + intros r d G.
      assert (I : In r (keys (snd (run_result (serve a (Some (R, K))))))).
      { rewrite served_keys, <- (served_keys a None).
        eapply get_Some_In; eauto. }
      apply In_keys_get in I as [d' G']. exists d'. split; auto.
      intros k.
      rewrite (served_entries _ _ _ _ G), (served_entries _ _ _ _ G').
      apply served_data_fault.
  - intros b.
    destruct (run_spec (serve_lookup a R b)) as [_ R1].
    exists (snd (run_result (serve_lookup a R b))).
    repeat split; auto.
    + now rewrite refused_keys, served_keys.
    + intros r d G.
      assert (I : In r (keys (snd (run_result (serve_lookup a R b))))).
      { rewrite refused_keys, <- (served_keys a None).
        eapply get_Some_In; eauto. }
      apply In_keys_get in I as [d' G']. exists d'. split; auto.
      intros k.
      rewrite (served_entries _ _ _ _ G), (refused_entries _ _ _ _ _ G').
      rewrite pass_data_refused. unfold served_data, fails_here.
      destruct (String.eqb_spec r R) as [->|N]; destruct k; reflexivity.
Qed.

(** C3, as stated, fails: when the instance query of ["r1"] fails, the
    volumes of ["r1"] are lost as well, because the volume query of that
    pass is never issued; and when the failing query of the bucket probe
    is the location lookup of the third bucket, the bucket sequence of
    ["r1"] is not empty: it keeps the bucket placed before. *)
Lemma failed_instances_lose_volumes :
  cell (snd (run (serve Sample.shop None))) "r1" "Volumes"
  = Some ["vol-1"]
  /\ cell (snd (run (serve Sample.shop (Some ("r1", Instances)))))
       "r1" "Volumes" = Some []
  /\ cell (snd (run (serve Sample.shop (Some ("r1", Instances)))))
       "r1" "Volumes"
     <> cell (snd (run (serve Sample.shop None))) "r1" "Volumes"
  /\ existsb (call_eqb (DescribeVolumes "r1"))
       (calls_of_run (serve Sample.shop (Some ("r1", Instances)))) = false
  /\ cell (snd (run (serve_lookup Scenario.depot "r1" "b3")))
       "r1" "S3Buckets" = Some ["b1"].
Proof. repeat split. vm_compute. discriminate. Qed.

(** * Further properties of the enumeration *)

(** ** The keys of the returned dictionary *)

(** X1: the dictionary [get_all_resources] returns has one key for every
    discovered region other than ["ALL"] and no other key: no key is
    repeated, ["ALL"] is never a key, and after a failed region listing
    there is no key at all. *)
Theorem inventory_keys_are_regions (aws : cloud) :
  exists inv,
    snd (run aws) = Returned inv
    /\ NoDup (keys inv)
    /\ ~ In "ALL" (keys inv)
    /\ forall r,
         In r (keys inv)
         <-> match describe_regions aws [] with
             | Ok regions => In r regions /\ r <> "ALL"
             | Fails => False
             end.
Proof.
  destruct (run_spec aws) as [_ R].
  exists (snd (run_result aws)). split; [exact R|].
  split; [apply run_result_NoDup|].
  split; [apply run_result_no_sentinel|].
  intros r. rewrite run_result_keys.
  destruct (describe_regions aws []) as [regions|]; [|simpl; tauto].
  rewrite distinct_In, filter_In. unfold not_all.
  destruct (String.eqb_spec r "ALL"); simpl; intuition congruence.
Qed.

(** ** The calls of a run *)

Section Calls.

Variable aws : cloud.

Lemma count_call_app c l l' :
  count_call c (l ++ l') = count_call c l + count_call c l'.
Proof. unfold count_call. now rewrite filter_app, length_app. Qed.

Lemma count_call_cons c c' l :
  count_call c (c' :: l)
  = (if call_eqb c c' then 1 else 0) + count_call c l.
Proof. unfold count_call. simpl. now destruct (call_eqb c c'). Qed.

Lemma s3_scan_suffix r bs :
  forall h, exists new,
    snd (s3_scan aws r bs h) = new ++ h
    /\ forall c, (forall b, call_eqb c (GetBucketLocation b) = false) ->
                 count_call c new = 0.
Proof.
  induction bs as [|b bs IH]; intros h; simpl.
  - exists []. auto.
  - destruct (get_bucket_location aws b h).
    + destruct (IH (GetBucketLocation b :: h)) as (new & E & C).
      destruct (s3_scan aws r bs _) as [kept h']. simpl in *.
      exists (new ++ [GetBucketLocation b]). split.
      * now rewrite E, <- app_assoc.
      * intros c Hc. rewrite count_call_app, (C c Hc).
        unfold count_call. simpl. now rewrite Hc.
    + exists [GetBucketLocation b]. split; auto.
      intros c Hc. unfold count_call. simpl. now rewrite Hc.
Qed.

(** The calls of a pass: those of the EC2 block, the bucket listing, the
    location lookups, the database query. *)
Lemma pass_calls_split r h :
  exists lookups,
    pass_calls aws r h
    = DescribeDBInstances r :: lookups ++ ListBuckets
        :: ec2_calls aws r h ++ h
    /\ forall c, (forall b, call_eqb c (GetBucketLocation b) = false) ->
                 count_call c lookups = 0.
Proof.
  unfold pass_calls, s3_pass.
  destruct (list_buckets aws _) as [bs|].
  - destruct (s3_scan_suffix r bs (ListBuckets :: ec2_calls aws r h ++ h))
      as (new & E & C).
    exists new. rewrite E. auto.
  - exists []. auto.
Qed.

Lemma pass_calls_count c r h :
  (forall b, call_eqb c (GetBucketLocation b) = false) ->
  count_call c (pass_calls aws r h)
  = (if call_eqb c (DescribeDBInstances r) then 1 else 0)
    + (if call_eqb c ListBuckets then 1 else 0)
    + count_call c (ec2_calls aws r h) + count_call c h.
Proof.
  intros Hc. destruct (pass_calls_split r h) as (lookups & -> & C).
  rewrite count_call_cons, count_call_app, (C c Hc), count_call_cons,
    count_call_app.
  lia.
Qed.

Lemma ec2_calls_count_instances r r' h :
  count_call (DescribeInstances r') (ec2_calls aws r h)
  = if r' =? r then 1 else 0.
Proof.
  unfold ec2_calls, count_call.
  destruct (describe_instances aws r h); simpl;
    [|now destruct (r' =? r)].
  destruct (describe_volumes aws r _); simpl; [|now destruct (r' =? r)].
  destruct (describe_snapshots aws r _); simpl; now destruct (r' =? r).
Qed.

Lemma ec2_calls_count_other c r h :
  (forall x, call_eqb c (DescribeInstances x) = false) ->
  (forall x, call_eqb c (DescribeVolumes x) = false) ->
  (forall x, call_eqb c (DescribeSnapshots x) = false) ->
  (forall x, call_eqb c (DescribeSecurityGroups x) = false) ->
  count_call c (ec2_calls aws r h) = 0.
Proof.
  intros H1 H2 H3 H4. unfold ec2_calls, count_call.
  destruct (describe_instances aws r h); simpl; rewrite ?H1; auto.
  destruct (describe_volumes aws r _); simpl; rewrite ?H1, ?H2; auto.
  destruct (describe_snapshots aws r _); simpl;
    rewrite ?H1, ?H2, ?H3, ?H4; auto.
Qed.

Lemma count_occ_string r' r l :
  count_occ string_dec (r :: l) r'
  = (if r' =? r then 1 else 0) + count_occ string_dec l r'.
Proof.
  simpl. destruct (string_dec r r') as [->|N].
  - now rewrite String.eqb_refl.
  - destruct (String.eqb_spec r' r); [congruence|reflexivity].
Qed.

Lemma loop_result_count_instances r' rs :
  forall h inv,
    count_call (DescribeInstances r') (fst (loop_result aws rs h inv))
    = count_occ string_dec (filter not_all rs) r'
      + count_call (DescribeInstances r') h.
Proof.
  induction rs as [|r rs IH]; intros h inv; [reflexivity|].
  cbn [loop_result filter]. unfold not_all at 1.
  destruct (r =? "ALL"); cbn [negb].
  - apply IH.
  - rewrite IH, pass_calls_count by reflexivity.
    rewrite ec2_calls_count_instances, count_occ_string. simpl. lia.
Qed.

Lemma loop_result_count_databases r' rs :
  forall h inv,
    count_call (DescribeDBInstances r') (fst (loop_result aws rs h inv))
    = count_occ string_dec (filter not_all rs) r'
      + count_call (DescribeDBInstances r') h.
Proof.
  induction rs as [|r rs IH]; intros h inv; [reflexivity|].
  cbn [loop_result filter]. unfold not_all at 1.
  destruct (r =? "ALL"); cbn [negb].
  - apply IH.
  - rewrite IH, pass_calls_count by reflexivity.
    rewrite ec2_calls_count_other by reflexivity.
    rewrite count_occ_string. simpl. lia.
Qed.




End Calls.


(** X3: in a run in which no call raises anything but [ClientError] (the
    runs of this model), whichever calls raise [ClientError], every pass
    over a region issues its instance query and its database query: both
    are issued for [r] as many times as the region listing names [r]
    (never for ["ALL"], never after a failed region listing). *)
Theorem every_pass_queries_ec2_and_rds (aws : cloud) (r : string) :
  let passes :=
    match describe_regions aws [] with
    | Ok regions => count_occ string_dec (filter not_all regions) r
    | Fails => 0
    end in
  count_call (DescribeInstances r) (calls_of_run aws) = passes
  /\ count_call (DescribeDBInstances r) (calls_of_run aws) = passes.
Proof.
  cbv zeta. destruct (run_spec aws) as [-> _]. unfold run_result.
  destruct (describe_regions aws []) as [regions|]; [|split; reflexivity].
  rewrite loop_result_count_instances, loop_result_count_databases.
  change (count_call (DescribeInstances r) [DescribeRegions]) with 0.
  change (count_call (DescribeDBInstances r) [DescribeRegions]) with 0.
  split; lia.
Qed.

Section Ec2Order.

Variable aws : cloud.

Lemma ec2_calls_in_order r r' h : in_ec2_order r' (ec2_calls aws r h).
Proof.
  unfold in_ec2_order, ec2_calls, count_call.
  destruct (describe_instances aws r h); simpl;
    [|destruct (r' =? r); simpl; lia].
  destruct (describe_volumes aws r _); simpl;
    [|destruct (r' =? r); simpl; lia].
  destruct (describe_snapshots aws r _); simpl;
    destruct (r' =? r); simpl; lia.
Qed.

Lemma pass_calls_in_order r r' h :
  in_ec2_order r' h -> in_ec2_order r' (pass_calls aws r h).
Proof.
  unfold in_ec2_order. intros H.
  pose proof (ec2_calls_in_order r r' h) as E. unfold in_ec2_order in E.
  rewrite !pass_calls_count by reflexivity. simpl. lia.
Qed.

Lemma loop_result_in_order r' rs :
  forall h inv,
    in_ec2_order r' h -> in_ec2_order r' (fst (loop_result aws rs h inv)).
Proof.
  induction rs as [|r rs IH]; intros h inv H; cbn [loop_result]; auto.
  destruct (r =? "ALL"); auto using pass_calls_in_order.
Qed.

(** When the instance query of [r] always fails, no pass issues the
    later EC2 queries for [r]. *)
Lemma ec2_calls_cut r r0 h c :
  (forall h, describe_instances aws r h = Fails) ->
  c = DescribeVolumes r \/ c = DescribeSnapshots r
  \/ c = DescribeSecurityGroups r ->
  count_call c (ec2_calls aws r0 h) = 0.
Proof.
  intros F Hc. unfold ec2_calls, count_call.
  destruct (String.eqb_spec r r0) as [<-|N].
  - rewrite F. destruct Hc as [->|[->| ->]]; reflexivity.
  - assert (E : (r =? r0) = false) by now apply String.eqb_neq.
    destruct (describe_instances aws r0 h);
      [|destruct Hc as [->|[->| ->]]; reflexivity].
    destruct (describe_volumes aws r0 _);
      [|destruct Hc as [->|[->| ->]]; simpl; rewrite ?E; reflexivity].
    destruct (describe_snapshots aws r0 _);
      destruct Hc as [->|[->| ->]]; simpl; rewrite ?E; reflexivity.
Qed.

Lemma loop_result_cut r c rs :
  (forall h, describe_instances aws r h = Fails) ->
  c = DescribeVolumes r \/ c = DescribeSnapshots r
  \/ c = DescribeSecurityGroups r ->
  forall h inv,
    count_call c (fst (loop_result aws rs h inv)) = count_call c h.
Proof.
  intros F Hc. induction rs as [|r0 rs IH]; intros h inv;
    cbn [loop_result]; auto.
  destruct (r0 =? "ALL"); auto.
  rewrite IH, pass_calls_count, (ec2_calls_cut r r0 h c F Hc).
  - destruct Hc as [->|[->| ->]]; reflexivity.
  - destruct Hc as [->|[->| ->]]; reflexivity.
Qed.

End Ec2Order.

Section BlockOrder.

Variable aws : cloud.

Lemma in_block_order_free l h :
  Forall (fun c => comes_after c = None) l ->
  in_block_order (l ++ h) = in_block_order h.
Proof.
  induction 1 as [|c l F _ IH]; [reflexivity|].
  cbn [app in_block_order]. now rewrite F.
Qed.

Lemma s3_scan_lookups r bs :
  forall h, exists new,
    snd (s3_scan aws r bs h) = new ++ h
    /\ Forall (fun c => comes_after c = None) new.
Proof.
  induction bs as [|b bs IH]; intros h; simpl.
  - now exists [].
  - destruct (get_bucket_location aws b h).
    + destruct (IH (GetBucketLocation b :: h)) as (new & E & F).
      destruct (s3_scan aws r bs _) as [kept h']. simpl in *.
      exists (new ++ [GetBucketLocation b]). split.
      * now rewrite E, <- app_assoc.
      * apply Forall_app. split; auto.
    + exists [GetBucketLocation b]. split; auto.
Qed.

Lemma ec2_calls_block_order r h :
  in_block_order (ec2_calls aws r h ++ h) = in_block_order h.
Proof.
  unfold ec2_calls.
  destruct (describe_instances aws r h); [|reflexivity].
  destruct (describe_volumes aws r _);
    [|cbn; now rewrite String.eqb_refl].
  destruct (describe_snapshots aws r _);
    cbn; now rewrite String.eqb_refl.
Qed.

Lemma pass_calls_block_order r h :
  in_block_order (pass_calls aws r h) = in_block_order h.
Proof.
  unfold pass_calls, s3_pass.
  change (in_block_order (DescribeDBInstances r :: ?l))
    with (in_block_order l).
  destruct (list_buckets aws _) as [bs|].
  - destruct (s3_scan_lookups r bs (ListBuckets :: ec2_calls aws r h ++ h))
      as (new & -> & F).
    rewrite in_block_order_free by assumption.
    change (in_block_order (ListBuckets :: ?l)) with (in_block_order l).
    apply ec2_calls_block_order.
  - cbn [snd].
    change (in_block_order (ListBuckets :: ?l)) with (in_block_order l).
    apply ec2_calls_block_order.
Qed.

Lemma loop_result_block_order rs :
  forall h inv,
    in_block_order (fst (loop_result aws rs h inv)) = in_block_order h.
Proof.
  induction rs as [|r rs IH]; intros h inv; cbn [loop_result]; auto.
  destruct (r =? "ALL"); rewrite IH; auto using pass_calls_block_order.
Qed.

End BlockOrder.

(** X4: in every run, the queries of the EC2 block are issued in the
    order of the block, a later one only after the earlier one of the
    same pass: in the log, every volume query comes right after the
    instance query of the same region, every snapshot query right after
    the volume query, every security-group query right after the snapshot
    query; so that, for every region, the security-group query is issued
    at most as often as the snapshot query, that one at most as often as
    the volume query, and that one at most as often as the instance
    query. *)
Theorem ec2_queries_in_order (aws : cloud) (r : string) :
  in_block_order (calls_of_run aws) = true
  /\ in_ec2_order r (calls_of_run aws).
Proof.
  destruct (run_spec aws) as [-> _]. unfold run_result.
  destruct (describe_regions aws []) as [regions|].
  - split.
    + now rewrite loop_result_block_order.
    + apply loop_result_in_order.
      unfold in_ec2_order, count_call. simpl. lia.
  - split; [reflexivity|]. unfold in_ec2_order, count_call. simpl. lia.
Qed.

(** A log in which the volume query was issued before the instance query
    is not in the order of the block, although it has as many instance
    queries as volume queries. *)
Example backwards_log_rejected :
  in_block_order [DescribeInstances "r1"; DescribeVolumes "r1"] = false
  /\ in_ec2_order "r1" [DescribeInstances "r1"; DescribeVolumes "r1"]
  /\ in_block_order [DescribeVolumes "r1"; DescribeInstances "r1"] = true.
Proof.
  split; [reflexivity|]. split; [|reflexivity].
  unfold in_ec2_order, count_call. simpl. lia.
Qed.

(** X5: when the instance query of a region fails every time it is
    issued, the volume, snapshot and security-group queries of that
    region are never issued. *)
Theorem failed_instances_stop_ec2 (aws : cloud) (r : string) :
  (forall h, describe_instances aws r h = Fails) ->
  count_call (DescribeVolumes r) (calls_of_run aws) = 0
  /\ count_call (DescribeSnapshots r) (calls_of_run aws) = 0
  /\ count_call (DescribeSecurityGroups r) (calls_of_run aws) = 0.
Proof.
  intros F. destruct (run_spec aws) as [-> _]. unfold run_result.
  destruct (describe_regions aws []) as [regions|];
    [|repeat split; reflexivity].
  rewrite !(loop_result_cut aws r _ regions F) by tauto.
  repeat split; reflexivity.
Qed.

Lemma failed_instances_stop_ec2_witness :
  let aws := serve Sample.shop (Some ("r1", Instances)) in
  count_call (DescribeVolumes "r1") (calls_of_run aws) = 0
  /\ count_call (DescribeSnapshots "r1") (calls_of_run aws) = 0
  /\ count_call (DescribeSecurityGroups "r1") (calls_of_run aws) = 0.
Proof.
  apply (failed_instances_stop_ec2
           (serve Sample.shop (Some ("r1", Instances))) "r1").
  intros h. reflexivity.
Defined.

(** ** Where the stored items come from *)

Section Sources.

Variable aws : cloud.

Lemma s3_pass_listed r h b :
  In b (fst (s3_pass aws r h)) ->
  exists h' bs, list_buckets aws h' = Ok bs /\ In b bs.
Proof.
  unfold s3_pass. destruct (list_buckets aws h) as [bs|] eqn:L; simpl;
    [|tauto].
  intros H. exists h, bs. split; auto. eapply s3_scan_listed; eauto.
Qed.

Ltac split_pass r h :=
  unfold pass_data, ec2_items, rds_items;
  destruct (describe_instances aws r h) as [rs|] eqn:E1;
  [destruct (describe_volumes aws r _) as [vs|] eqn:E2;
   [destruct (describe_snapshots aws r _) as [ss|] eqn:E3;
    [destruct (describe_security_groups aws r _) as [gs|] eqn:E4|]|]|];
  destruct (s3_pass aws r _) as [b h2] eqn:E5;
  destruct (describe_db_instances aws r h2) as [dbs|] eqn:E6;
  unfold items_of; simpl get; cbv iota.

(** Every item a pass stores was returned by a query of its kind for the
    region of the pass. *)
Lemma pass_instances_source r h x :
  In x (items_of "Instances" (pass_data aws r h)) ->
  exists h' rs reservation,
    describe_instances aws r h' = Ok rs
    /\ In reservation rs /\ In x reservation.
Proof.
  split_pass r h; intros H; try contradiction;
    apply in_concat in H as (res & H1 & H2); eauto 6.
Qed.

Lemma pass_volumes_source r h x :
  In x (items_of "Volumes" (pass_data aws r h)) ->
  exists h' vs, describe_volumes aws r h' = Ok vs /\ In x vs.
Proof. split_pass r h; intros H; try contradiction; eauto. Qed.

Lemma pass_snapshots_source r h x :
  In x (items_of "Snapshots" (pass_data aws r h)) ->
  exists h' ss, describe_snapshots aws r h' = Ok ss /\ In x ss.
Proof. split_pass r h; intros H; try contradiction; eauto. Qed.

Lemma pass_security_groups_source r h x :
  In x (items_of "SecurityGroups" (pass_data aws r h)) ->
  exists h' gs g,
    describe_security_groups aws r h' = Ok gs
    /\ In g gs /\ x = sg_item g.
Proof.
  split_pass r h; intros H; try contradiction;
    apply in_map_iff in H as (g & <- & H); eauto 6.
Qed.

Lemma pass_buckets_source r h x :
  In x (items_of "S3Buckets" (pass_data aws r h)) ->
  (exists h' bs, list_buckets aws h' = Ok bs /\ In x bs)
  /\ exists h' loc,
       get_bucket_location aws x h' = Ok loc /\ governing_region loc = r.
Proof.
  unfold items_of. rewrite pass_data_buckets. intros H. split.
  - eapply s3_pass_listed; eauto.
  - apply s3_pass_In in H as (h' & loc & L & B).
    exists h', loc. split; auto. now apply bucket_matches_governing.
Qed.

Lemma pass_databases_source r h x :
  In x (items_of "RDSInstances" (pass_data aws r h)) ->
  exists h' dbs db,
    describe_db_instances aws r h' = Ok dbs
    /\ In db dbs /\ x = db_item db.
Proof.
  split_pass r h; intros H; try contradiction;
    apply in_map_iff in H as (db & <- & H); eauto 6.
Qed.

End Sources.

(** X6: nothing in the returned dictionary is made up or moved between
    regions: every item of the entry of region [r] was returned by a
    successful query of its kind for [r] (an instance id inside one of the
    reservations, a security group as [name (id)], a database instance as
    [identifier (Status: status)]), and every bucket of the entry was
    named by a bucket listing and placed in [r] by a location lookup. *)
Theorem stored_items_have_a_source (aws : cloud) :
  exists inv,
    snd (run aws) = Returned inv
    /\ forall r d x,
         get r inv = Some d ->
         (In x (items_of "Instances" d) ->
          exists h rs reservation,
            describe_instances aws r h = Ok rs
            /\ In reservation rs /\ In x reservation)
         /\ (In x (items_of "Volumes" d) ->
             exists h vs, describe_volumes aws r h = Ok vs /\ In x vs)
         /\ (In x (items_of "Snapshots" d) ->
             exists h ss, describe_snapshots aws r h = Ok ss /\ In x ss)
         /\ (In x (items_of "SecurityGroups" d) ->
             exists h gs g,
               describe_security_groups aws r h = Ok gs
               /\ In g gs /\ x = sg_item g)
         /\ (In x (items_of "S3Buckets" d) ->
             (exists h bs, list_buckets aws h = Ok bs /\ In x bs)
             /\ exists h loc,
                  get_bucket_location aws x h = Ok loc
                  /\ governing_region loc = r)
         /\ (In x (items_of "RDSInstances" d) ->
             exists h dbs db,
               describe_db_instances aws r h = Ok dbs
               /\ In db dbs /\ x = db_item db).
Proof.
  destruct (run_spec aws) as [_ R].
  exists (snd (run_result aws)). split; [exact R|].
  intros r d x G. revert x. revert r d G.
  apply (run_result_entries aws
    (fun r d => forall x,
       (In x (items_of "Instances" d) ->
        exists h rs reservation,
          describe_instances aws r h = Ok rs
          /\ In reservation rs /\ In x reservation)
       /\ (In x (items_of "Volumes" d) ->
           exists h vs, describe_volumes aws r h = Ok vs /\ In x vs)
       /\ (In x (items_of "Snapshots" d) ->
           exists h ss, describe_snapshots aws r h = Ok ss /\ In x ss)
       /\ (In x (items_of "SecurityGroups" d) ->
           exists h gs g,
             describe_security_groups aws r h = Ok gs
             /\ In g gs /\ x = sg_item g)
       /\ (In x (items_of "S3Buckets" d) ->
           (exists h bs, list_buckets aws h = Ok bs /\ In x bs)
           /\ exists h loc,
                get_bucket_location aws x h = Ok loc
                /\ governing_region loc = r)
       /\ (In x (items_of "RDSInstances" d) ->
           exists h dbs db,
             describe_db_instances aws r h = Ok dbs
             /\ In db dbs /\ x = db_item db))).
  intros regions r h _ _ _ x.
  repeat split.
  - apply pass_instances_source.
  - apply pass_volumes_source.
  - apply pass_snapshots_source.
  - apply pass_security_groups_source.
  - now apply (pass_buckets_source aws r h x).
  - now apply (pass_buckets_source aws r h x).
  - apply pass_databases_source.
Qed.

(** X7: a bucket is never stored under two regions: when all the location
    lookups of a bucket that succeed name the same governing region, the
    bucket is in the bucket sequence of at most one region of the
    returned dictionary. *)
Theorem bucket_in_one_region_at_most (aws : cloud) (b : string) :
  (forall h h' loc loc',
      get_bucket_location aws b h = Ok loc ->
      get_bucket_location aws b h' = Ok loc' ->
      governing_region loc = governing_region loc') ->
  exists inv,
    snd (run aws) = Returned inv
    /\ forall r r' d d',
         get r inv = Some d -> get r' inv = Some d' ->
         In b (items_of "S3Buckets" d) ->
         In b (items_of "S3Buckets" d') ->
         r = r'.
Proof.
  intros S. destruct (run_spec aws) as [_ R].
  exists (snd (run_result aws)). split; [exact R|].
  assert (P : forall r d,
             get r (snd (run_result aws)) = Some d ->
             In b (items_of "S3Buckets" d) ->
             exists h loc,
               get_bucket_location aws b h = Ok loc
               /\ governing_region loc = r).
  { apply (run_result_entries aws
             (fun r d => In b (items_of "S3Buckets" d) ->
                exists h loc,
                  get_bucket_location aws b h = Ok loc
                  /\ governing_region loc = r)).
    intros regions r h _ _ _ H. now apply (pass_buckets_source aws r h b). }
  intros r r' d d' G G' I I'.
  destruct (P r d G I) as (h & loc & L & <-).
  destruct (P r' d' G' I') as (h' & loc' & L' & <-).
  eapply S; eauto.
Qed.

Lemma bucket_in_one_region_at_most_witness :
  exists inv,
    snd (run Sample.two_regions) = Returned inv
    /\ forall r r' d d',
         get r inv = Some d -> get r' inv = Some d' ->
         In "b1" (items_of "S3Buckets" d) ->
         In "b1" (items_of "S3Buckets" d') ->
         r = r'.
Proof.
  apply (bucket_in_one_region_at_most Sample.two_regions "b1").
  intros h h' loc loc' [= <-] [= <-]. reflexivity.
Defined.

(** ** The bucket and database blocks stand alone *)

Section Alone.

Variable aws : cloud.

Lemma s3_scan_exact r (loc : string -> option string) bs :
  (forall h b, In b bs -> get_bucket_location aws b h = Ok (loc b)) ->
  forall h,
    fst (s3_scan aws r bs h)
    = filter (fun b => bucket_matches (loc b) r) bs.
Proof.
  induction bs as [|b bs IH]; intros H h; [reflexivity|].
  cbn [s3_scan filter]. rewrite (H h b) by (simpl; auto).
  specialize (IH (fun h b' Hb => H h b' (or_intror Hb))
                (GetBucketLocation b :: h)).
  destruct (s3_scan aws r bs _) as [kept h']. cbn [fst] in *. subst kept.
  now destruct (bucket_matches (loc b) r).
Qed.

Lemma pass_data_databases r h (answer : response (list db_instance)) :
  (forall h', describe_db_instances aws r h' = answer) ->
  get "RDSInstances" (pass_data aws r h)
  = Some match answer with
         | Ok dbs => map db_item dbs
         | Fails => []
         end.
Proof.
  intros H. unfold pass_data, rds_items.
  destruct (ec2_items aws r h) as [[[i v] s] g].
  destruct (s3_pass aws r _) as [b h2]. now rewrite H.
Qed.

End Alone.

(** X8: in a run in which no call raises anything but [ClientError],
    whether the EC2 and database queries of a pass return or raise
    [ClientError], when the bucket listing and the location lookups
    answer the same at every call, the bucket sequence of a discovered
    region is exactly the listed buckets located in that region (those
    without location under [us-east-1]), in the order of the listing. *)
Theorem buckets_of_region_in_listing_order (aws : cloud)
  (regions bs : list string) (loc : string -> option string) (r : string) :
  describe_regions aws [] = Ok regions ->
  In r regions ->
  r <> "ALL" ->
  (forall h, list_buckets aws h = Ok bs) ->
  (forall h b, In b bs -> get_bucket_location aws b h = Ok (loc b)) ->
  exists inv d,
    snd (run aws) = Returned inv
    /\ get r inv = Some d
    /\ get "S3Buckets" d
       = Some (filter (fun b => bucket_matches (loc b) r) bs).
Proof.
  intros HR Hin N HL Hloc. destruct (run_spec aws) as [_ R].
  destruct (run_result_has_region aws regions r HR Hin N) as [d G].
  exists (snd (run_result aws)), d. repeat split; auto.
  revert G.
  apply (run_result_entries aws
           (fun r d => get "S3Buckets" d
                       = Some (filter (fun b => bucket_matches (loc b) r)
                                 bs))).
  intros regions' r' h _ _ _. rewrite pass_data_buckets. unfold s3_pass.
  rewrite HL. f_equal. now apply s3_scan_exact.
Qed.

Lemma buckets_of_region_in_listing_order_witness :
  describe_instances (serve Scenario.depot (Some ("r1", Instances))) "r1" []
  = Fails
  /\ filter (fun b => bucket_matches (location_of Scenario.depot b) "r1")
       ["b1"; "b2"; "b3"] = ["b1"; "b3"]
  /\ exists inv d,
       snd (run (serve Scenario.depot (Some ("r1", Instances))))
       = Returned inv
       /\ get "r1" inv = Some d
       /\ get "S3Buckets" d = Some ["b1"; "b3"].
Proof.
  split; [reflexivity|]. split; [reflexivity|].
  apply (buckets_of_region_in_listing_order
           (serve Scenario.depot (Some ("r1", Instances)))
           ["r1"; "r2"] ["b1"; "b2"; "b3"]
           (location_of Scenario.depot) "r1").
  - reflexivity.
  - simpl. auto.
  - discriminate.
  - intros h. simpl. unfold fails_here.
    destruct (current_region h); reflexivity.
  - reflexivity.
Defined.

(** X9: in a run in which no call raises anything but [ClientError],
    the database block is cut off from the other two: whether the EC2
    and bucket calls of a pass return or raise [ClientError], when the
    database query of a discovered region gives the same answer at every
    call, the region's database sequence is one item
    [identifier (Status: status)] per instance of that answer, in its
    order, and is empty when the answer is [ClientError]. *)
Theorem databases_of_region (aws : cloud) (regions : list string)
  (r : string) (answer : response (list db_instance)) :
  describe_regions aws [] = Ok regions ->
  In r regions ->
  r <> "ALL" ->
  (forall h, describe_db_instances aws r h = answer) ->
  exists inv d,
    snd (run aws) = Returned inv
    /\ get r inv = Some d
    /\ get "RDSInstances" d
       = Some match answer with
              | Ok dbs => map db_item dbs
              | Fails => []
              end.
Proof.
  intros HR Hin N H. destruct (run_spec aws) as [_ R].
  destruct (run_result_has_region aws regions r HR Hin N) as [d G].
  exists (snd (run_result aws)), d. repeat split; auto.
  assert (P : exists h, d = pass_data aws r h).
  { revert G.
    apply (run_result_entries aws
             (fun r d => exists h, d = pass_data aws r h)).
    intros. eauto. }
  destruct P as [h ->]. now apply pass_data_databases.
Qed.

Lemma databases_of_region_witness :
  describe_instances (serve Scenario.depot (Some ("r1", Instances))) "r1" []
  = Fails
  /\ (exists inv d,
        snd (run (serve Scenario.depot (Some ("r1", Instances))))
        = Returned inv
        /\ get "r1" inv = Some d
        /\ get "RDSInstances" d
           = Some ["db-1 (Status: available)"; "db-2 (Status: stopped)"])
  /\ exists inv d,
       snd (run Sample.flaky) = Returned inv
       /\ get "r1" inv = Some d
       /\ get "RDSInstances" d = Some [].
Proof.
  split; [reflexivity|]. split.
  - apply (databases_of_region
             (serve Scenario.depot (Some ("r1", Instances)))
             ["r1"; "r2"] "r1"
             (Ok (db_instances_of Scenario.depot "r1"))).
    + reflexivity.
    + simpl. auto.
    + discriminate.
    + reflexivity.
  - apply (databases_of_region Sample.flaky ["r1"] "r1" Fails).
    + reflexivity.
    + simpl. auto.
    + discriminate.
    + reflexivity.
Defined.

(** ** An account without failures *)

Lemma dict_as_map {V} (f : string -> V) (d : dict V) :
  NoDup (keys d) ->
  (forall k v, get k d = Some v -> v = f k) ->
  d = map (fun k => (k, f k)) (keys d).
Proof.
  induction d as [|[k v] d IH]; intros N H; [reflexivity|].
  inversion N as [|? ? N1 N2]; subst. simpl. f_equal.
  - f_equal. apply H. simpl. now rewrite String.eqb_refl.
  - apply IH; auto. intros k' v' G. apply H. simpl.
    destruct (String.eqb_spec k' k) as [->|_]; auto.
    exfalso. apply N1. eapply get_Some_In; eauto.
Qed.

(** X10: for an account whose calls all succeed and whose answers do not
    change during the run, the returned dictionary is exactly: one entry
    per listed region other than ["ALL"], in the order of the listing
    (a repeated name at its first place), holding all the instance ids of
    the region (reservation after reservation), its volume ids, its
    snapshot ids, its security groups, the listed buckets located in the
    region and its database instances. *)
Theorem healthy_account_inventory (a : account) :
  snd (run (serve a None))
  = Returned
      (map (fun r =>
              (r, [ ("Instances", List.concat (instances_of a r));
                    ("Volumes", volumes_of a r);
                    ("Snapshots", snapshots_of a r);
                    ("SecurityGroups",
                     map sg_item (security_groups_of a r));
                    ("S3Buckets",
                     filter (fun b => bucket_matches (location_of a b) r)
                       (buckets_of a));
                    ("RDSInstances",
                     map db_item (db_instances_of a r)) ]))
         (distinct (filter not_all (regions_of a)))).
Proof.
  destruct (run_spec (serve a None)) as [_ ->]. f_equal.
  rewrite <- (served_keys a None).
  apply (dict_as_map (fun r => served_data a None r)).
  - apply run_result_NoDup.
  - intros r d G. now apply served_entries.
Qed.

(** * Properties of the window *)

(** ** The combination for ["ALL"] *)

Lemma extend_keys_closed (acc : string -> list string)
  (d : region_inventory) :
  extend_keys kinds (map (fun k => (k, acc k)) kinds) d
  = if forallb (has_key d) kinds
    then Returned (map (fun k => (k, acc k ++ items_of k d)) kinds)
    else Raised KeyError.
Proof.
  unfold kinds, has_key, items_of. cbn [map forallb extend_keys].
  simpl get at 1.
  destruct (get "Instances" d); [|reflexivity]. simpl.
  destruct (get "Volumes" d); [|reflexivity]. simpl.
  destruct (get "Snapshots" d); [|reflexivity]. simpl.
  destruct (get "SecurityGroups" d); [|reflexivity]. simpl.
  destruct (get "S3Buckets" d); [|reflexivity]. simpl.
  destruct (get "RDSInstances" d); reflexivity.
Qed.

Lemma combine_loop_closed (resources : inventory) :
  forall acc : string -> list string,
    combine_loop resources (map (fun k => (k, acc k)) kinds)
    = if forallb entry_ok resources
      then Returned
             (map (fun k =>
                     (k, acc k
                           ++ flat_map (fun entry => items_of k (snd entry))
                                (filter (fun entry => not_all (fst entry))
                                   resources)))
                kinds)
      else Raised KeyError.
Proof.
  induction resources as [|[r d] resources IH]; intros acc.
  - cbn [combine_loop forallb filter flat_map]. f_equal.
    apply map_ext. intros k. now rewrite app_nil_r.
  - cbn [combine_loop forallb filter]. unfold entry_ok at 1, not_all at 1.
    cbn [fst snd]. destruct (r =? "ALL"); cbn [orb negb].
    + apply IH.
    + change (keys (map (fun k => (k, acc k)) kinds)) with kinds.
      rewrite extend_keys_closed.
      destruct (forallb (has_key d) kinds); [|reflexivity].
      rewrite IH. cbn [andb].
      destruct (forallb entry_ok resources); [|reflexivity].
      f_equal. apply map_ext. intros k. cbn [flat_map snd].
      now rewrite app_assoc.
Qed.

(** X11: the combination for the label ["ALL"] raises [KeyError] exactly
    when an entry other than ["ALL"] lacks one of the six kind keys;
    otherwise it returns the six kinds in their order, each with the
    concatenation of that kind over the entries other than ["ALL"], in
    their order; keys beyond the six are ignored. *)
Theorem combine_all_or_key_error (resources : inventory) :
  combine_all resources
  = if forallb entry_ok resources
    then Returned
           (map (fun k =>
                   (k, flat_map (fun entry => items_of k (snd entry))
                         (filter (fun entry => not_all (fst entry))
                            resources)))
              kinds)
    else Raised KeyError.
Proof.
  unfold combine_all.
  change empty_region_data with (map (fun k => (k, @nil string)) kinds).
  apply (combine_loop_closed resources (fun _ => [])).
Qed.

Example combine_all_incomplete :
  combine_all Scenario.incomplete = Raised KeyError
  /\ display_resources_for_region Scenario.incomplete (Some "ALL")
     = Raised KeyError.
Proof. split; reflexivity. Qed.

(** ** The region list *)

Lemma init_window (aws : cloud) :
  Window.__init__ aws
  = Returned
      (Window.log
         ("AWS Enumerator initialized. Select a region on the left "
            ++ "to see its resources.")
         {| Window.log_text := [];
            Window.region_list := sorted (keys (snd (run_result aws)));
            Window.resource_display := [];
            Window.resources := snd (run_result aws) |}).
Proof.
  unfold Window.__init__. destruct (run_spec aws) as [_ ->]. reflexivity.
Qed.

Lemma sorted_In (l : list string) (x : string) : In x (sorted l) <-> In x l.
Proof.
  unfold sorted. split; intros H.
  - eapply Permutation_in; [|exact H].
    apply Permutation_sym, StringSort.Permuted_sort.
  - eapply Permutation_in; [|exact H]. apply StringSort.Permuted_sort.
Qed.


(** ** Choosing a region *)

Lemma display_on_window (w : Window.MainWindow) (current : option string) :
  Window.display_resources_for_region w current
  = match display_resources_for_region (Window.resources w) current with
    | Returned None => Returned w
    | Returned (Some (message, text)) =>
        Returned (Window.show text (Window.log message w))
    | Raised e => Raised e
    end.
Proof.
  unfold Window.display_resources_for_region, display_resources_for_region.
  destruct current as [region|]; [|reflexivity].
  destruct (region =? "ALL"); [|reflexivity].
  destruct (combine_all (Window.resources w)); reflexivity.
Qed.

(** X13: every label of the region list shows its own region: choosing
    an item of the list of a freshly opened window never takes the
    ["ALL"] branch and never raises; the resource pane then holds exactly
    the formatted entry of that region, an entry with the six kinds, and
    the log pane gains the one message naming the region. *)
Theorem listed_region_shows_its_entry (aws : cloud)
  (w : Window.MainWindow) (r : string) :
  Window.__init__ aws = Returned w ->
  In r (Window.region_list w) ->
  exists d,
    get r (Window.resources w) = Some d
    /\ keys d = kinds
    /\ r <> "ALL"
    /\ Window.display_resources_for_region w (Some r)
       = Returned
           {| Window.log_text :=
                Window.log_text w
                  ++ [("Displaying resources for region " ++ r ++ ".")%string];
              Window.region_list := Window.region_list w;
              Window.resource_display := [format_region_data r d];
              Window.resources := Window.resources w |}.
Proof.
  rewrite init_window. intros [= <-].
  cbn [Window.log Window.resources Window.region_list Window.log_text
       Window.resource_display].
  rewrite sorted_In. intros I.
  destruct (In_keys_get _ _ I) as [d G]. exists d.
  split; [exact G|]. split.
  { revert G.
    apply (run_result_entries aws (fun _ d => keys d = kinds)).
    intros. apply pass_data_keys. }
  assert (N : r <> "ALL").
  { intros ->. now apply (run_result_no_sentinel aws). }
  split; [exact N|].
  unfold Window.display_resources_for_region.
  apply String.eqb_neq in N. rewrite N.
  cbn [Window.log Window.resources Window.show]. now rewrite G.
Qed.

Lemma listed_region_shows_its_entry_witness :
  exists d,
    get "r1" (Window.resources Scenario.two_regions_window) = Some d
    /\ keys d = kinds
    /\ "r1" <> "ALL"
    /\ Window.display_resources_for_region Scenario.two_regions_window
         (Some "r1")
       = Returned
           {| Window.log_text :=
                Window.log_text Scenario.two_regions_window
                  ++ ["Displaying resources for region r1."];
              Window.region_list := ["r1"; "r2"];
              Window.resource_display := [format_region_data "r1" d];
              Window.resources :=
                Window.resources Scenario.two_regions_window |}.
Proof.
  apply (listed_region_shows_its_entry Sample.two_regions
           Scenario.two_regions_window "r1").
  - reflexivity.
  - simpl. auto.
Defined.

(** X14: a label that is neither ["ALL"] nor in the region list has no
    entry: choosing it on a freshly opened window does not raise; the
    resource pane then holds the title line alone. *)
Theorem unlisted_region_shows_title_only (aws : cloud)
  (w : Window.MainWindow) (r : string) :
  Window.__init__ aws = Returned w ->
  r <> "ALL" ->
  ~ In r (Window.region_list w) ->
  get r (Window.resources w) = None
  /\ Window.display_resources_for_region w (Some r)
     = Returned
         {| Window.log_text :=
              Window.log_text w
                ++ [("Displaying resources for region " ++ r ++ ".")%string];
            Window.region_list := Window.region_list w;
            Window.resource_display :=
              [("Resources in region: " ++ r ++ newline)%string];
            Window.resources := Window.resources w |}.
Proof.
  rewrite init_window. intros [= <-] N.
  cbn [Window.log Window.resources Window.region_list Window.log_text
       Window.resource_display].
  rewrite sorted_In. intros I.
  assert (G : get r (snd (run_result aws)) = None).
  { destruct (get r (snd (run_result aws))) eqn:G; auto.
    exfalso. apply I. eapply get_Some_In; eauto. }
  split; [exact G|].
  unfold Window.display_resources_for_region.
  apply String.eqb_neq in N. rewrite N.
  cbn [Window.log Window.resources Window.show]. rewrite G.
  unfold format_region_data, format_lines. simpl. reflexivity.
Qed.

Lemma unlisted_region_shows_title_only_witness :
  get "r9" (Window.resources Scenario.two_regions_window) = None
  /\ Window.display_resources_for_region Scenario.two_regions_window
       (Some "r9")
     = Returned
         {| Window.log_text :=
              Window.log_text Scenario.two_regions_window
                ++ ["Displaying resources for region r9."];
            Window.region_list := ["r1"; "r2"];
            Window.resource_display :=
              [("Resources in region: r9" ++ newline)%string];
            Window.resources :=
              Window.resources Scenario.two_regions_window |}.
Proof.
  apply (unlisted_region_shows_title_only Sample.two_regions
           Scenario.two_regions_window "r9").
  - reflexivity.
  - discriminate.
  - simpl. intros [H|[H|[]]]; discriminate.
Defined.

(** ** A sequence of choices *)

Lemma display_run_returns (aws : cloud) (r : string) :
  exists text,
    display_resources_for_region (snd (run_result aws)) (Some r)
    = Returned (Some (message_for r, text)).
Proof.
  unfold display_resources_for_region, message_for.
  destruct (r =? "ALL"); [|eauto].
  destruct (combine_run aws) as (c & -> & _). eauto.
Qed.

Lemma selections_run (aws : cloud) (changes : list (option string)) :
  forall w,
    Window.resources w = snd (run_result aws) ->
    exists w',
      Window.selections w changes = Returned w'
      /\ Window.resources w' = Window.resources w
      /\ Window.region_list w' = Window.region_list w
      /\ Window.log_text w' = Window.log_text w ++ messages changes
      /\ Window.resource_display w'
         = match last_chosen changes with
           | Some r => pane_after (Window.resources w) r
           | None => Window.resource_display w
           end.
Proof.
  induction changes as [|current changes IH]; intros w E.
  - exists w. simpl. repeat split; auto. now rewrite app_nil_r.
  - cbn [Window.selections last_chosen chosen messages].
    rewrite display_on_window.
    destruct current as [r|].
    + destruct (display_run_returns aws r) as (text & D).
      rewrite E, D.
      destruct (IH (Window.show text (Window.log (message_for r) w)) E)
        as (w' & S & R & L & N & P).
      exists w'. cbn [Window.show Window.log Window.resources
        Window.region_list Window.log_text Window.resource_display] in *.
      repeat split; auto.
      * congruence.
      * now rewrite N, <- app_assoc.
      * rewrite P. destruct (last_chosen changes); [now rewrite E|].
        unfold pane_after. now rewrite D.
    + cbn [display_resources_for_region].
      destruct (IH w E) as (w' & S & R & L & N & P).
      exists w'. repeat split; auto.
      rewrite P. now destruct (last_chosen changes).
Qed.

(** X15: after any sequence of changes of the current item on a freshly
    opened window, whatever labels were chosen (listed or not, ["ALL"]
    included), the slot has never raised; the fetched dictionary and the
    region list are as they were; the log pane holds exactly the opening
    message followed by the message of every item chosen, in the order
    of the choices; and the resource pane holds only the text of the
    item chosen last (nothing before a first choice): texts never pile
    up. *)
Theorem choices_never_raise_nor_pile_up (aws : cloud)
  (w : Window.MainWindow) (changes : list (option string)) :
  Window.__init__ aws = Returned w ->
  exists w',
    Window.selections w changes = Returned w'
    /\ Window.resources w' = Window.resources w
    /\ Window.region_list w' = Window.region_list w
    /\ Window.log_text w' = opening_message :: messages changes
    /\ List.length (Window.log_text w') = 1 + chosen changes
    /\ Window.resource_display w'
       = match last_chosen changes with
         | Some r => pane_after (Window.resources w) r
         | None => []
         end.
Proof.
  rewrite init_window. intros [= <-].
  destruct (selections_run aws changes
              (Window.log opening_message
                 {| Window.log_text := [];
                    Window.region_list :=
                      sorted (keys (snd (run_result aws)));
                    Window.resource_display := [];
                    Window.resources := snd (run_result aws) |})
              eq_refl) as (w' & S & R & L & N & P).
  exists w'. repeat split; auto.
  rewrite N. cbn [Window.log Window.log_text app length]. f_equal.
  clear. induction changes as [|[r|] changes IH]; simpl; auto.
Qed.

Lemma choices_never_raise_nor_pile_up_witness :
  exists w',
    Window.selections Scenario.two_regions_window
      [Some "r2"; None; Some "ALL"; Some "r1"; None] = Returned w'
    /\ Window.resources w' = Window.resources Scenario.two_regions_window
    /\ Window.region_list w' = ["r1"; "r2"]
    /\ Window.log_text w'
       = [ opening_message;
           "Displaying resources for region r2.";
           "Displaying resources for ALL regions.";
           "Displaying resources for region r1." ]
    /\ List.length (Window.log_text w') = 1 + 3
    /\ Window.resource_display w'
       = pane_after (Window.resources Scenario.two_regions_window) "r1".
Proof.
  apply (choices_never_raise_nor_pile_up Sample.two_regions
           Scenario.two_regions_window
           [Some "r2"; None; Some "ALL"; Some "r1"; None]).
  reflexivity.
Defined.

(** * The last pass over a region (C9) *)

Section LastPass.

Variable aws : cloud.







End LastPass.



